(** * Verification of the connection manager and the block alarm task

    A shallow embedding of [connectionmanager.go] (the per-token-network
    connection policy) and [blockchain/alarmtask.go] (the block monitor)
    of the raiden-network node, together with the properties that the design
    document states about them.

    Conventions of the embedding:
    - Go [int64] (and [int], taken as 64 bits wide as on amd64/arm64) is a [Z]
      with the two's-complement wrap-around written out ([Int64.wrap]);
    - Go [float64] is Rocq's primitive binary64 float;
    - [common.Address] (20 bytes) is an [N];
    - Go maps are [gmap]s, slices are lists;
    - the collaborators that are not part of the files (the RaidenApi, the
      channel graph, the ledger client) are an interface, [RaidenApi];
      every call that reaches the ledger is also recorded in a ghost log. *)

From Stdlib Require Import ZArith QArith Qround Floats String.
From stdpp Require Import gmap list sorting.

Local Open Scope Z_scope.

(** ** Machine integers and floats *)

Module Int64.
Definition min_int : Z := - 2 ^ 63.
Definition max_int : Z := 2 ^ 63 - 1.

Definition in_range (z : Z) : Prop := min_int <= z <= max_int.

(** Reduction of a mathematical integer to its int64 representative. *)
Definition wrap (z : Z) : Z := (z + 2 ^ 63) mod 2 ^ 64 - 2 ^ 63.

Definition add (a b : Z) : Z := wrap (a + b).
Definition sub (a b : Z) : Z := wrap (a - b).
End Int64.

Module Float64.
(** [float64(z)]: the binary64 number nearest to [z] (ties to even). *)
Definition of_int64 (z : Z) : float :=
  SF2Prim (binary_normalize prec emax z 0 false).

(** The integer part of a finite float (fraction discarded), [None] for
    infinities and NaN. *)
Definition truncate (x : float) : option Z :=
  match Prim2SF x with
  | S754_zero _ => Some 0
  | S754_finite s m e =>
      let a := if 0 <=? e then Z.pos m * 2 ^ e else Z.pos m / 2 ^ (- e) in
      Some (if s then - a else a)
  | S754_infinity _ | S754_nan => None
  end.

(** [int64(x)]: truncation toward zero.  Go leaves the result open when the
    value does not fit; the amd64 conversion instruction then yields the
    smallest int64, which is what is modelled here. *)
Definition to_int64 (x : float) : Z :=
  match truncate x with
  | Some z =>
      if (Int64.min_int <=? z) && (z <=? Int64.max_int) then z
      else Int64.min_int
  | None => Int64.min_int
  end.

(** The exact rational value of a finite float. *)
Definition exact (x : float) : option Q :=
  match Prim2SF x with
  | S754_zero _ => Some 0%Q
  | S754_finite s m e =>
      let a := if 0 <=? e then inject_Z (Z.pos m * 2 ^ e)
               else Qmake (Z.pos m) (Z.to_pos (2 ^ (- e))) in
      Some (if s then Qopp a else a)
  | S754_infinity _ | S754_nan => None
  end.
End Float64.

(** ** Data model of the connection manager *)

Definition Address := N.

(** Modelled from the spec: the channel state constants of package [transfer]
    (opened, closed, settled; every other state is [CHANNEL_STATE_OTHER]). *)
Inductive ChannelState :=
| CHANNEL_STATE_OPENED
| CHANNEL_STATE_CLOSED
| CHANNEL_STATE_SETTLED
| CHANNEL_STATE_OTHER.

#[global] Instance ChannelState_eq_dec : EqDecision ChannelState.
Proof. solve_decision. Defined.

(** The fields of [channel.Channel] that the connection manager reads. *)
Record Channel := {
  State : ChannelState;
  MyAddress : Address;
  PartnerAddress : Address;         (* c.PartnerState.Address *)
  ContractBalance : Z;              (* int64 *)
  ReceivedTransfers : list N        (* only its length is read *)
}.

Inductive error :=
| errors_New (msg : string)
| partner_not_in_channelgraph (partner token : Address)
| api_error (code : N)
| slice_bounds_panic.

(** A call that reaches the ledger through the RaidenApi. *)
Inductive LedgerCall :=
| CallOpen (token partner : Address) (settleTimeout revealTimeout : Z)
| CallDeposit (token partner : Address) (amount : Z)
| CallClose (token partner : Address).

(** The collaborators of the connection manager, over a state [W] of
    everything outside it (channel registry, channel graph, ledger). *)
Class RaidenApi (W : Type) := {
  (* api.GetChannelList(token, utils.EmptyAddress) *)
  GetChannelList : Address -> W -> list Channel;
  (* channelGraph.HaveNodes(), channelGraph.AllNodes() *)
  HaveNodes : W -> bool;
  AllNodes : W -> list Address;
  (* raiden.Token2ChannelGraph[token].PartenerAddress2Channel[partner] *)
  PartnerInGraph : Address -> Address -> W -> bool;
  (* api.Open, api.Deposit, api.Close: new outside state and the error *)
  Open : Address -> Address -> Z -> Z -> W -> W * option error;
  Deposit : Address -> Address -> Z -> W -> W * option error;
  Close : Address -> Address -> W -> W * option error
}.

Section ConnectionManagerModel.
Context {W : Type} {api : RaidenApi W}.

Record ConnectionManager := {
  BOOTSTRAP_ADDR : Address;
  NodeAddress : Address;             (* raiden.NodeAddress *)
  ConfigSettleTimeout : Z;           (* raiden.Config.SettleTimeout *)
  ConfigRevealTimeout : Z;           (* raiden.Config.RevealTimeout *)
  blockedTokens : gmap Address bool; (* raiden.MessageHandler.blockedTokens *)
  tokenAddress : Address;
  funds : Z;
  initChannelTarget : Z;
  joinableFundsTarget : float;
  world : W;
  ledger : list LedgerCall           (* ghost: the ledger calls issued *)
}.

Definition with_blockedTokens (b : gmap Address bool) (cm : ConnectionManager) :=
  {| BOOTSTRAP_ADDR := BOOTSTRAP_ADDR cm; NodeAddress := NodeAddress cm;
     ConfigSettleTimeout := ConfigSettleTimeout cm;
     ConfigRevealTimeout := ConfigRevealTimeout cm;
     blockedTokens := b; tokenAddress := tokenAddress cm; funds := funds cm;
     initChannelTarget := initChannelTarget cm;
     joinableFundsTarget := joinableFundsTarget cm;
     world := world cm; ledger := ledger cm |}.

Definition with_funds (f : Z) (cm : ConnectionManager) :=
  {| BOOTSTRAP_ADDR := BOOTSTRAP_ADDR cm; NodeAddress := NodeAddress cm;
     ConfigSettleTimeout := ConfigSettleTimeout cm;
     ConfigRevealTimeout := ConfigRevealTimeout cm;
     blockedTokens := blockedTokens cm; tokenAddress := tokenAddress cm;
     funds := f; initChannelTarget := initChannelTarget cm;
     joinableFundsTarget := joinableFundsTarget cm;
     world := world cm; ledger := ledger cm |}.

Definition with_initChannelTarget (t : Z) (cm : ConnectionManager) :=
  {| BOOTSTRAP_ADDR := BOOTSTRAP_ADDR cm; NodeAddress := NodeAddress cm;
     ConfigSettleTimeout := ConfigSettleTimeout cm;
     ConfigRevealTimeout := ConfigRevealTimeout cm;
     blockedTokens := blockedTokens cm; tokenAddress := tokenAddress cm;
     funds := funds cm; initChannelTarget := t;
     joinableFundsTarget := joinableFundsTarget cm;
     world := world cm; ledger := ledger cm |}.

Definition with_joinableFundsTarget (r : float) (cm : ConnectionManager) :=
  {| BOOTSTRAP_ADDR := BOOTSTRAP_ADDR cm; NodeAddress := NodeAddress cm;
     ConfigSettleTimeout := ConfigSettleTimeout cm;
     ConfigRevealTimeout := ConfigRevealTimeout cm;
     blockedTokens := blockedTokens cm; tokenAddress := tokenAddress cm;
     funds := funds cm; initChannelTarget := initChannelTarget cm;
     joinableFundsTarget := r;
     world := world cm; ledger := ledger cm |}.

(** The effect of one RaidenApi call: the outside state moves on and the
    call is appended to the ghost log. *)
Definition with_call (w : W) (c : LedgerCall) (cm : ConnectionManager) :=
  {| BOOTSTRAP_ADDR := BOOTSTRAP_ADDR cm; NodeAddress := NodeAddress cm;
     ConfigSettleTimeout := ConfigSettleTimeout cm;
     ConfigRevealTimeout := ConfigRevealTimeout cm;
     blockedTokens := blockedTokens cm; tokenAddress := tokenAddress cm;
     funds := funds cm; initChannelTarget := initChannelTarget cm;
     joinableFundsTarget := joinableFundsTarget cm;
     world := w; ledger := ledger cm ++ [c] |}.

Definition api_Open (partner : Address) (cm : ConnectionManager)
  : option error * ConnectionManager :=
  let '(w, err) := Open (tokenAddress cm) partner (ConfigSettleTimeout cm)
                        (ConfigRevealTimeout cm) (world cm) in
  (err, with_call w (CallOpen (tokenAddress cm) partner (ConfigSettleTimeout cm)
                              (ConfigRevealTimeout cm)) cm).

Definition api_Deposit (partner : Address) (amount : Z) (cm : ConnectionManager)
  : option error * ConnectionManager :=
  let '(w, err) := Deposit (tokenAddress cm) partner amount (world cm) in
  (err, with_call w (CallDeposit (tokenAddress cm) partner amount) cm).

Definition api_Close (partner : Address) (cm : ConnectionManager)
  : option error * ConnectionManager :=
  let '(w, err) := Close (tokenAddress cm) partner (world cm) in
  (err, with_call w (CallClose (tokenAddress cm) partner) cm).

(** ** The operations of connectionmanager.go *)

(** NewConnectionManager: no funds, a target of three channels and 0.4 of
    the funds kept back.  What the manager reads of [raiden] (node address,
    timeouts, blocked tokens) is passed along with the token address and the
    outside state. *)
Definition NewConnectionManager (nodeAddress : Address)
    (settleTimeout revealTimeout : Z) (blocked : gmap Address bool)
    (token : Address) (w : W) : ConnectionManager :=
  {| BOOTSTRAP_ADDR := 0x0202020202020202020202020202020202020202%N;
     NodeAddress := nodeAddress;
     ConfigSettleTimeout := settleTimeout; ConfigRevealTimeout := revealTimeout;
     blockedTokens := blocked; tokenAddress := token;
     funds := 0; initChannelTarget := 3;
     joinableFundsTarget := 0x1.999999999999ap-2%float;
     world := w; ledger := [] |}.

Definition openChannels (cm : ConnectionManager) : list Channel :=
  filter (fun c => State c = CHANNEL_STATE_OPENED)
         (GetChannelList (tokenAddress cm) (world cm)).

Definition initialFundingPerPartner (cm : ConnectionManager) : Z :=
  if 0 <? initChannelTarget cm then
    let f1 := Float64.of_int64 (funds cm) in
    let f2 := Float64.of_int64 (initChannelTarget cm) in
    Float64.to_int64 (f1 * (1 - joinableFundsTarget cm) / f2)%float
  else 0.

Definition sumDeposits (cm : ConnectionManager) : Z :=
  foldl (fun sum c => Int64.add sum (ContractBalance c)) 0 (openChannels cm).

Definition fundsRemaining (cm : ConnectionManager) : Z :=
  if 0 <? funds cm then Int64.sub (funds cm) (sumDeposits cm) else 0.

Definition blocked (cm : ConnectionManager) : bool :=
  bool_decide (is_Some (blockedTokens cm !! tokenAddress cm)).

Definition WantsMoreChannels (cm : ConnectionManager) : bool :=
  if blocked cm then false
  else (0 <? fundsRemaining cm)
       && (Z.of_nat (length (openChannels cm)) <? initChannelTarget cm).

Definition receivingChannels (cm : ConnectionManager) : list Channel :=
  filter (fun c => (0 < length (ReceivedTransfers c))%nat) (openChannels cm).

Definition LeaveState (cm : ConnectionManager) : bool :=
  blocked cm || (initChannelTarget cm <? 1).

Definition closeAll (onlyReceiving : bool) (cm : ConnectionManager)
  : list Channel * ConnectionManager :=
  let cm := with_initChannelTarget 0 cm in
  let channelsToClose :=
    if onlyReceiving then receivingChannels cm else openChannels cm in
  (channelsToClose,
   foldl (fun st c => snd (api_Close (PartnerAddress c) st)) cm channelsToClose).

(** The inner [for ... range closedChannels] of WaitForSettle: [found]
    becomes true at the first channel that is not settled. *)
Fixpoint scanSettled (state : Channel -> ChannelState)
    (closedChannels : list Channel) (found : bool) : bool :=
  match closedChannels with
  | [] => found
  | c :: rest =>
      if decide (state c <> CHANNEL_STATE_SETTLED) then true
      else scanSettled state rest found
  end.

(** The outer [for] of WaitForSettle.  [observe k c] is what [c.State()]
    reports during the [k]-th round of polling; [fuel] bounds the number of
    rounds looked at, and [None] means that the call is still sleeping
    after that many rounds. *)
Fixpoint WaitForSettle_loop (fuel : nat)
    (observe : nat -> Channel -> ChannelState)
    (closedChannels : list Channel) (k : nat) (found : bool) : option bool :=
  match fuel with
  | O => None
  | S fuel' =>
      let found := scanSettled (observe k) closedChannels found in
      if found then (* time.Sleep(time.Minute) *)
        WaitForSettle_loop fuel' observe closedChannels (S k) found
      else Some true
  end.

Definition WaitForSettle (fuel : nat) (observe : nat -> Channel -> ChannelState)
    (closedChannels : list Channel) : option bool :=
  WaitForSettle_loop fuel observe closedChannels 0 false.

Definition Leave (fuel : nat) (observe : nat -> Channel -> ChannelState)
    (onlyReceiving : bool) (cm : ConnectionManager)
  : option (list Channel) * ConnectionManager :=
  let cm := with_blockedTokens (<[tokenAddress cm := true]> (blockedTokens cm)) cm in
  let cm := if 0 <? initChannelTarget cm then with_initChannelTarget 0 cm else cm in
  let closed := closeAll onlyReceiving cm in
  let closedChannels := fst closed in
  (match WaitForSettle fuel observe closedChannels with
   | Some _ => Some closedChannels
   | None => None
   end, snd closed).

Definition openAndDeposit (partner : Address) (fundingAmount : Z)
    (cm : ConnectionManager) : option error * ConnectionManager :=
  let '(err, cm) := api_Open partner cm in
  match err with
  | Some e => (Some e, cm)
  | None =>
      if PartnerInGraph (tokenAddress cm) partner (world cm)
      then api_Deposit partner fundingAmount cm
      else (Some (partner_not_in_channelgraph partner (tokenAddress cm)), cm)
  end.

(** [availables[:number]] panics for a negative [number]. *)
Definition findNewPartners (number : Z) (cm : ConnectionManager)
  : option (list Address) :=
  let known : gmap Address bool :=
    <[NodeAddress cm := true]>
      (<[BOOTSTRAP_ADDR cm := true]>
         (foldl (fun known c => <[PartnerAddress c := true]> known) ∅
                (openChannels cm))) in
  let availables :=
    filter (fun n => default false (known !! n) = false) (AllNodes (world cm)) in
  if number <? Z.of_nat (length availables) then
    if number <? 0 then None else Some (take (Z.to_nat number) availables)
  else Some availables.

(** The [for ... range] of addNewPartners, left at the first error. *)
Fixpoint addNewPartners_loop (partners : list Address) (cm : ConnectionManager)
  : option error * ConnectionManager :=
  match partners with
  | [] => (None, cm)
  | partner :: rest =>
      let '(err, cm) := openAndDeposit partner (initialFundingPerPartner cm) cm in
      match err with
      | Some e => (Some e, cm)
      | None => addNewPartners_loop rest cm
      end
  end.

Definition addNewPartners (cm : ConnectionManager)
  : option error * ConnectionManager :=
  let newPartnerCount :=
    Int64.sub (initChannelTarget cm) (Z.of_nat (length (openChannels cm))) in
  if newPartnerCount <=? 0 then (None, cm)
  else match findNewPartners newPartnerCount cm with
       | Some partners => addNewPartners_loop partners cm
       | None => (Some slice_bounds_panic, cm)
       end.

Definition Connect (funds' initialChannelTarget : Z) (joinableFundsTarget' : float)
    (cm : ConnectionManager) : option error * ConnectionManager :=
  if funds' <=? 0 then
    (Some (errors_New "connecting needs a positive value for `funds`"), cm)
  else
    let cm := if blocked cm
              then with_blockedTokens (delete (tokenAddress cm) (blockedTokens cm)) cm
              else cm in
    let cm := with_initChannelTarget initialChannelTarget cm in
    let cm := with_joinableFundsTarget joinableFundsTarget' cm in
    let cm := if negb (HaveNodes (world cm))
              then snd (api_Open (BOOTSTRAP_ADDR cm) cm)
              else cm in
    let cm := with_funds funds' cm in
    addNewPartners cm.

Definition RetryConnect (cm : ConnectionManager) : ConnectionManager :=
  if funds cm <=? 0 then cm
  else if LeaveState cm then cm
  else if fundsRemaining cm <=? 0 then cm
  else if initChannelTarget cm <=? Z.of_nat (length (openChannels cm)) then cm
  else snd (addNewPartners cm).

Definition JoinChannel (partnerAddress : Address) (partnerDepost : Z)
    (cm : ConnectionManager) : ConnectionManager :=
  if funds cm <=? 0 then cm
  else if LeaveState cm then cm
  else
    let remaining := fundsRemaining cm in
    let initial := initialFundingPerPartner cm in
    let joiningFunds := partnerDepost in
    let joiningFunds := if remaining <? joiningFunds then remaining else joiningFunds in
    let joiningFunds := if initial <? joiningFunds then initial else joiningFunds in
    if joiningFunds <=? 0 then cm
    else snd (api_Deposit partnerAddress joiningFunds cm).

(** A node that findNewPartners may select: known in the graph, not the node
    itself, not the bootstrap address, not the partner of an open channel. *)
Definition eligible (cm : ConnectionManager) (p : Address) : Prop :=
  p ∈ AllNodes (world cm) /\
  p <> NodeAddress cm /\
  p <> BOOTSTRAP_ADDR cm /\
  p ∉ map PartnerAddress (openChannels cm).

End ConnectionManagerModel.

Arguments ConnectionManager W : clear implicits.

(** ** The block alarm task (blockchain/alarmtask.go) *)

(** A Go func value: [cb_id] stands for the identity of the closure and
    [cb_call] for what it returns when called with a block number ([None]
    is the nil error).  The callbacks considered answer by the block number
    alone. *)
Record AlarmCallback := {
  cb_id : nat;
  cb_call : Z -> option error
}.

(** Go variables live at locations, and every declaration takes a location
    of its own: [declare] hands out the next free one. *)
Definition Loc := nat.

Definition declare (free : Loc) : Loc * Loc := (free, S free).

(** The state of an unbuffered [chan struct{}]. *)
Inductive ChanState := ChanOpen | ChanClosed.

Record AlarmTask := {
  lastBlockNumber : Z;
  shouldStop : ChanState;
  callback : list AlarmCallback
}.

Definition NewAlarmTask : AlarmTask :=
  {| lastBlockNumber := -1; shouldStop := ChanOpen; callback := [] |}.

Definition RegisterCallback (cb : AlarmCallback) (t : AlarmTask) : AlarmTask :=
  {| lastBlockNumber := lastBlockNumber t; shouldStop := shouldStop t;
     callback := callback t ++ [cb] |}.

(** The [for k, c := range this.callback] of RemoveCallback.  [addr2] is the
    location of the parameter [cb] and [addr1] the location of the range
    variable [c]; [ranged] is what is left of the slice being ranged over
    and [current] is [this.callback].  [None] is the slice-bounds panic of
    [this.callback[k+1:]].  The range variable is one variable for the whole
    loop; declared anew at every iteration it would be at further locations,
    none of them that of [cb]. *)
Fixpoint RemoveCallback_loop (addr2 addr1 : Loc) (k : nat)
    (ranged current : list AlarmCallback) : option (list AlarmCallback) :=
  match ranged with
  | [] => Some current
  | c :: rest =>
      if Nat.eqb addr1 addr2 then
        if (k + 1 <=? length current)%nat then
          RemoveCallback_loop addr2 addr1 (S k) rest
            (take k current ++ drop (k + 1) current)
        else None
      else RemoveCallback_loop addr2 addr1 (S k) rest current
  end.

Definition RemoveCallback (free : Loc) (cb : AlarmCallback) (t : AlarmTask)
  : option AlarmTask :=
  let '(addr2, free) := declare free in     (* the parameter cb *)
  let '(addr1, free) := declare free in     (* the range variable c *)
  match RemoveCallback_loop addr2 addr1 0 (callback t) (callback t) with
  | Some l =>
      Some {| lastBlockNumber := lastBlockNumber t; shouldStop := shouldStop t;
              callback := l |}
  | None => None
  end.

(** What a call of Stop comes to: it returns, it stays blocked in the send
    (nobody receives), or it panics. *)
Inductive StopOutcome :=
| StopReturns (t : AlarmTask)
| StopBlocked
| StopPanics.

(** [this.shouldStop <- struct{}{}; close(this.shouldStop)].  A send on a
    closed channel panics; a send on an open unbuffered channel completes
    when a receiver is ready. *)
Definition Stop (receiverReady : bool) (t : AlarmTask) : StopOutcome :=
  match shouldStop t with
  | ChanClosed => StopPanics
  | ChanOpen =>
      if receiverReady then
        StopReturns {| lastBlockNumber := lastBlockNumber t;
                       shouldStop := ChanClosed; callback := callback t |}
      else StopBlocked
  end.

(** The first loop of the header case: every callback is called with the
    block number, the ones that return an error are collected.  The ghost
    log [invoked] records each call as (callback, block number). *)
Fixpoint invokeCallbacks (currentBlock : Z) (cbs removes : list AlarmCallback)
    (invoked : list (nat * Z)) : list AlarmCallback * list (nat * Z) :=
  match cbs with
  | [] => (removes, invoked)
  | cb :: rest =>
      let invoked := invoked ++ [(cb_id cb, currentBlock)] in
      match cb_call cb currentBlock with
      | Some _ => invokeCallbacks currentBlock rest (removes ++ [cb]) invoked
      | None => invokeCallbacks currentBlock rest removes invoked
      end
  end.

(** The second loop: [this.RemoveCallback(cb)] for every collected one. *)
Fixpoint removeCallbacks (free : Loc) (removes : list AlarmCallback)
    (t : AlarmTask) : option AlarmTask :=
  match removes with
  | [] => Some t
  | cb :: rest =>
      match RemoveCallback free cb t with
      | Some t => removeCallbacks free rest t
      | None => None
      end
  end.

(** Where the goroutine of [run] stands. *)
Inductive Runner :=
| NotStarted
| AtRun                                        (* about to call waitNewBlock *)
| Fetched (currentBlock : Z) (headerCh : list Z)
                                 (* header fetched, subscription not made yet *)
| Selecting (currentBlock : Z) (headerCh : list Z)  (* in the for/select *)
| Panicked.

(** The task together with the chain it watches.  The chain does not fork:
    it is a height that only grows, one header per height.  [headerCh]
    of the runner holds the headers sent to it and not yet received. *)
Record System := {
  task : AlarmTask;
  runner : Runner;
  chainHeight : Z;
  invoked : list (nat * Z)
}.

Inductive Event :=
| EvStart                  (* Start() *)
| EvRegisterCallback (cb : AlarmCallback)   (* a caller runs RegisterCallback(cb) *)
| EvBlockMined             (* the chain grows by one block *)
| EvHeaderByNumberFails
| EvHeaderByNumberOk
| EvSubscribeFails
| EvSubscribeOk
| EvRecvHeader             (* the select takes the case <-headerCh *)
| EvStop                   (* a caller runs Stop() *)
| EvRecvClosedStop.        (* the select takes <-shouldStop, channel closed *)

Definition with_runner (r : Runner) (s : System) : System :=
  {| task := task s; runner := r; chainHeight := chainHeight s;
     invoked := invoked s |}.

(** The case [h, ok := <-headerCh] with [ok] true ([headerCh] is closed by
    nobody but the runner itself, right before it returns, so that [ok] is
    never false).  The warning about missed blocks changes nothing and is
    left out.  RemoveCallback runs in a frame of its own, whose variables
    are at the locations from 0 on. *)
Definition onHeader (h : Z) (rest : list Z) (s : System) : System :=
  let currentBlock := h in
  let '(removes, log) := invokeCallbacks currentBlock (callback (task s)) [] (invoked s) in
  match removeCallbacks 0%nat removes (task s) with
  | Some t =>
      {| task := t; runner := Selecting currentBlock rest;
         chainHeight := chainHeight s; invoked := log |}
  | None =>
      {| task := task s; runner := Panicked;
         chainHeight := chainHeight s; invoked := log |}
  end.

(** One step of the system; [None] when the event cannot happen in the
    state (the corresponding party is blocked or elsewhere).

    The system has one goroutine of [run]: [Start] is [go this.run()] with
    no guard, and a second call would start a second goroutine on the same
    task; the step relation describes a task on which Start is called once,
    and a second [EvStart] is not a step of it.  RegisterCallback can be
    called at any time, before or after Start. *)
Definition step (e : Event) (s : System) : option System :=
  match e, runner s with
  | EvStart, NotStarted => Some (with_runner AtRun s)
  | EvRegisterCallback cb, r =>
      Some {| task := RegisterCallback cb (task s); runner := r;
              chainHeight := chainHeight s; invoked := invoked s |}
  | EvBlockMined, r =>
      let h := chainHeight s + 1 in
      let r := match r with
               | Selecting cur q => Selecting cur (q ++ [h])
               | _ => r
               end in
      Some {| task := task s; runner := r; chainHeight := h;
              invoked := invoked s |}
  | EvHeaderByNumberFails, AtRun => Some s       (* run sleeps and retries *)
  | EvHeaderByNumberOk, AtRun =>
      Some (with_runner (Fetched (lastBlockNumber (task s)) [chainHeight s]) s)
  | EvSubscribeFails, Fetched _ _ => Some (with_runner AtRun s)
  | EvSubscribeOk, Fetched cur q => Some (with_runner (Selecting cur q) s)
  | EvRecvHeader, Selecting cur (h :: q) => Some (onHeader h q s)
  | EvStop, r =>
      let receiving := match r with Selecting _ _ => true | _ => false end in
      match Stop receiving (task s) with
      | StopReturns t =>
          (* the runner unsubscribes, closes headerCh and returns nil to
             run, which calls waitNewBlock again *)
          Some {| task := t; runner := AtRun; chainHeight := chainHeight s;
                  invoked := invoked s |}
      | StopBlocked => None
      | StopPanics => Some (with_runner Panicked s)
      end
  | EvRecvClosedStop, Selecting _ _ =>
      match shouldStop (task s) with
      | ChanClosed => Some (with_runner AtRun s)
      | ChanOpen => None
      end
  | _, _ => None
  end.

Fixpoint execute (es : list Event) (s : System) : option System :=
  match es with
  | [] => Some s
  | e :: es =>
      match step e s with
      | Some s => execute es s
      | None => None
      end
  end.

(** The block numbers a callback has been called with, in order. *)
Definition heightsOf (id : nat) (log : list (nat * Z)) : list Z :=
  map snd (filter (fun p => fst p = id) log).

Fixpoint strictlyIncreasing (l : list Z) : bool :=
  match l with
  | [] => true
  | x :: rest =>
      match rest with
      | [] => true
      | y :: _ => (x <? y) && strictlyIncreasing rest
      end
  end.

(** ** A reference ledger for the worked examples

    An instance of the collaborators in which every call succeeds: the
    outside state is the list of channels of the token network and the
    nodes of its graph. *)

Record RefLedger := {
  refChannels : list Channel;
  refNodes : list Address
}.

Definition refNewChannel (partner : Address) : Channel :=
  {| State := CHANNEL_STATE_OPENED; MyAddress := 1%N; PartnerAddress := partner;
     ContractBalance := 0; ReceivedTransfers := [] |}.

Definition refHasPartner (partner : Address) (w : RefLedger) : bool :=
  existsb (fun c => N.eqb (PartnerAddress c) partner) (refChannels w).

Definition refUpdate (partner : Address) (f : Channel -> Channel) (w : RefLedger)
  : RefLedger :=
  {| refChannels :=
       map (fun c => if N.eqb (PartnerAddress c) partner then f c else c)
           (refChannels w);
     refNodes := refNodes w |}.

#[global] Instance RefLedger_api : RaidenApi RefLedger := {|
  GetChannelList := fun _ w => refChannels w;
  HaveNodes := fun w => negb (Nat.eqb (length (refNodes w)) 0);
  AllNodes := refNodes;
  PartnerInGraph := fun _ partner w => refHasPartner partner w;
  Open := fun _ partner _ _ w =>
    (if refHasPartner partner w then w
     else {| refChannels := refChannels w ++ [refNewChannel partner];
             refNodes := refNodes w |}, None);
  Deposit := fun _ partner amount w =>
    (refUpdate partner
       (fun c => {| State := State c; MyAddress := MyAddress c;
                    PartnerAddress := PartnerAddress c;
                    ContractBalance := Int64.add (ContractBalance c) amount;
                    ReceivedTransfers := ReceivedTransfers c |}) w, None);
  Close := fun _ partner w =>
    (refUpdate partner
       (fun c => {| State := CHANNEL_STATE_CLOSED; MyAddress := MyAddress c;
                    PartnerAddress := PartnerAddress c;
                    ContractBalance := ContractBalance c;
                    ReceivedTransfers := ReceivedTransfers c |}) w, None)
|}.

Definition refChannel (s : ChannelState) (partner : Address) (balance : Z)
    (received : list N) : Channel :=
  {| State := s; MyAddress := 1%N; PartnerAddress := partner;
     ContractBalance := balance; ReceivedTransfers := received |}.

(** The ledger calls issued between two states of the manager. *)
Definition newCalls {W : Type} (before after : ConnectionManager W)
  : list LedgerCall :=
  drop (length (ledger before)) (ledger after).

Definition openedPartners (calls : list LedgerCall) : list Address :=
  omap (fun c => match c with CallOpen _ p _ _ => Some p | _ => None end) calls.

(** The exact value that the design document gives for the funding of a new
    channel: the floor of [f * (1 - r) / t] over the rationals. *)
Definition exactFundingFloor (f t : Z) (r : float) : option Z :=
  match Float64.exact r with
  | Some q => Some (Qfloor (inject_Z f * (1 - q) / inject_Z t))
  | None => None
  end.

(** The float64 computation of initialFundingPerPartner on its three inputs. *)
Definition fundingFormula (f t : Z) (r : float) : Z :=
  Float64.to_int64 (Float64.of_int64 f * (1 - r) / Float64.of_int64 t)%float.

(** ** Notions for the reasoning on float64 operations

    The specification of binary64 that the primitive floats come with
    ([SpecFloat]) rounds by shifting a mantissa to the right while keeping
    a round bit and a sticky bit. *)

(** What the shifts of [shr] keep track of: the mantissa [shr_m mrs] is the
    integer part of a value of which [R / D] is the rest, and the round and
    sticky bits say where the rest stands with respect to the half. *)
Definition shr_inv (mrs : shr_record) (R D : Z) : Prop :=
  0 <= shr_m mrs /\ 0 <= R < D /\
  (shr_r mrs = true <-> D <= 2 * R) /\
  (shr_s mrs = true <-> R <> 0 /\ 2 * R <> D).

(** [mrs'] is [mrs] shifted right by [k] bits. *)
Definition shr_by (k : Z) (mrs mrs' : shr_record) (R D : Z) : Prop :=
  shr_m mrs' = shr_m mrs / 2 ^ k /\
  shr_inv mrs' (shr_m mrs mod 2 ^ k * D + R) (2 ^ k * D).

(** The location [l] is the one of the rest [R / D]. *)
Definition loc_inv (l : location) (R D : Z) : Prop :=
  0 <= R < D /\
  match l with
  | loc_Exact => R = 0
  | loc_Inexact Lt => 0 < 2 * R < D
  | loc_Inexact Eq => 2 * R = D
  | loc_Inexact Gt => D < 2 * R
  end.

(** The binary64 number of value [N * 2 ^ E], for [0 < N < 2 ^ 53] and an
    exponent in the normal range: its mantissa has 53 bits. *)
Definition rep (N E : Z) : spec_float :=
  S754_finite false (Z.to_pos (N * 2 ^ (53 - Zdigits2 N))) (E + Zdigits2 N - 53).

(** ** Fixtures for the connection manager *)

(** The manager of node 1 for token 7 (settle timeout 600, reveal timeout
    30, no token blocked), fresh and with the policy parameters set. *)
Definition refManager (w : RefLedger) : ConnectionManager RefLedger :=
  NewConnectionManager 1%N 600 30 ∅ 7%N w.

Definition manager (f t : Z) (r : float) (w : RefLedger)
  : ConnectionManager RefLedger :=
  with_funds f (with_initChannelTarget t
    (with_joinableFundsTarget r (refManager w))).

Definition bootstrap : Address := 0x0202020202020202020202020202020202020202%N.

(** A token network with ten discoverable partners (11 to 20) besides the
    node itself (1) and the bootstrap address, and no channel yet. *)
Definition tenPartners : RefLedger :=
  {| refChannels := [];
     refNodes := [1; bootstrap; 11; 12; 13; 14; 15; 16; 17; 18; 19; 20]%N |}.

(** One open channel, with partner 5 and a deposit of [balance]. *)
Definition oneChannel (balance : Z) : RefLedger :=
  {| refChannels := [refChannel CHANNEL_STATE_OPENED 5%N balance []];
     refNodes := [1; bootstrap; 5; 6]%N |}.

(** Channel A (partner 5) has received transfers, channel B (partner 6) has
    not. *)
Definition chA : Channel := refChannel CHANNEL_STATE_OPENED 5%N 100 [1%N].
Definition chB : Channel := refChannel CHANNEL_STATE_OPENED 6%N 100 [].

Definition channelsAB : RefLedger :=
  {| refChannels := [chA; chB]; refNodes := [1; bootstrap; 5; 6]%N |}.

(** A chain on which a closed channel is reported closed at the first round
    of polling and settled at every later round. *)
Definition settledFromSecondPoll (k : nat) (c : Channel) : ChannelState :=
  match k with
  | O => CHANNEL_STATE_CLOSED
  | S _ => CHANNEL_STATE_SETTLED
  end.

(** ** Fixtures for the alarm task *)

(** A task as NewAlarmTask makes it, with the given callbacks registered in
    order, not started yet, watching a chain of the given height. *)
Definition initialSystem (cbs : list AlarmCallback) (height : Z) : System :=
  {| task := foldl (fun t cb => RegisterCallback cb t) NewAlarmTask cbs;
     runner := NotStarted; chainHeight := height; invoked := [] |}.

(** The headers sent to the runner and not yet received. *)
Definition queueOf (r : Runner) : list Z :=
  match r with
  | Fetched _ q | Selecting _ q => q
  | _ => []
  end.

Definition subscribed (r : Runner) : bool :=
  match r with
  | Selecting _ _ => true
  | _ => false
  end.

(** The log of calling all of [cbs], in order, for each height of [hs]. *)
Definition rounds (cbs : list AlarmCallback) (hs : list Z) : list (nat * Z) :=
  concat (map (fun h => map (fun cb => (cb_id cb, h)) cbs) hs).

(** What holds of the system as long as nobody calls Stop: the log is made
    of whole rounds for the heights [hs], which together with the headers
    still queued are strictly increasing and at most the chain height, and
    no round has been run before the subscription is made. *)
Record StopFree (cbs : list AlarmCallback) (s : System) (hs : list Z) : Prop := {
  sf_open : shouldStop (task s) = ChanOpen;
  sf_callbacks : callback (task s) = cbs;
  sf_alive : runner s <> Panicked;
  sf_log : invoked s = rounds cbs hs;
  sf_idle : subscribed (runner s) = false -> hs = [];
  sf_sorted : StronglySorted Z.lt (hs ++ queueOf (runner s));
  sf_bound : Forall (fun h => h <= chainHeight s) (hs ++ queueOf (runner s))
}.

(** A callback that gives up at every block, and one that never does. *)
Definition alwaysFails : AlarmCallback :=
  {| cb_id := 0; cb_call := fun _ => Some (errors_New "no longer interested") |}.

Definition neverFails : AlarmCallback :=
  {| cb_id := 0; cb_call := fun _ => None |}.

(** ** More of connectionmanager.go *)

Section ConnectionManagerRest.
Context {W : Type} {api : RaidenApi W}.

(** minSettleBlocks.  [SettleTimeout c] and [ClosedBlock c] stand for the
    fields [c.SettleTimeout] and [c.ExternState.ClosedBlock] of
    channel.Channel, which nothing else reads, and [currentBlock] for what
    [raiden.GetBlockNumber()] returns.  The loop calls [c.State()] again,
    after the filter of receivingChannels has read it, and a channel can
    have changed state in between: [stateAt n c] is what the call number
    [n] of [c.State()] made by the loop returns, the second test of an
    iteration being a call of its own. *)
Fixpoint minSettleBlocks_loop (SettleTimeout ClosedBlock : Channel -> Z)
    (currentBlock : Z) (stateAt : nat -> Channel -> ChannelState)
    (n : nat) (chs : list Channel) (maxTimeout : Z) : Z :=
  match chs with
  | [] => maxTimeout
  | c :: rest =>
      let '(sinceClosed, n) :=
        if decide (stateAt n c = CHANNEL_STATE_CLOSED)
        then (Int64.sub currentBlock (ClosedBlock c), S n)
        else if decide (stateAt (S n) c = CHANNEL_STATE_OPENED)
             then (-1, S (S n))
             else (0, S (S n)) in
      let t := Int64.sub (SettleTimeout c) sinceClosed in
      minSettleBlocks_loop SettleTimeout ClosedBlock currentBlock stateAt n rest
        (if maxTimeout <? t then t else maxTimeout)
  end.

Definition minSettleBlocks (SettleTimeout ClosedBlock : Channel -> Z)
    (currentBlock : Z) (stateAt : nat -> Channel -> ChannelState)
    (cm : ConnectionManager W) : Z :=
  let chs := receivingChannels cm in
  let maxTimeout := -1 in
  minSettleBlocks_loop SettleTimeout ClosedBlock currentBlock stateAt 0 chs
    maxTimeout.

(** The policy side of the manager: everything but the outside state and
    the ledger log. *)
Definition policyOf (cm : ConnectionManager W) :=
  (BOOTSTRAP_ADDR cm, NodeAddress cm, ConfigSettleTimeout cm,
   ConfigRevealTimeout cm, blockedTokens cm, tokenAddress cm, funds cm,
   initChannelTarget cm, joinableFundsTarget cm).

(** The deposits of the open channels, added up in the integers. *)
Definition depositsTotal (cm : ConnectionManager W) : Z :=
  foldr (fun c total => ContractBalance c + total) 0 (openChannels cm).

(** The two ledger calls by which a new partner gets its channel and its
    funding. *)
Definition fundingCalls (cm : ConnectionManager W) (partner : Address)
  : list LedgerCall :=
  [CallOpen (tokenAddress cm) partner (ConfigSettleTimeout cm) (ConfigRevealTimeout cm);
   CallDeposit (tokenAddress cm) partner (initialFundingPerPartner cm)].

(** The nodes of the graph that findNewPartners does not rule out, in the
    order of the graph. *)
Definition availablePartners (cm : ConnectionManager W) : list Address :=
  filter (fun p => p <> NodeAddress cm /\ p <> BOOTSTRAP_ADDR cm /\
                   p ∉ map PartnerAddress (openChannels cm))
         (AllNodes (world cm)).

End ConnectionManagerRest.

Definition isClose (c : LedgerCall) : bool :=
  match c with
  | CallClose _ _ => true
  | _ => false
  end.

(** ** A ledger that loses the channels it opens

    An instance of the collaborators on which Open reports no error but the
    partner never shows up in the channel graph, so that openAndDeposit
    fails after its Open. *)

Record LostLedger := { lostNodes : list Address }.

#[global] Instance LostLedger_api : RaidenApi LostLedger := {|
  GetChannelList := fun _ _ => [];
  HaveNodes := fun w => negb (Nat.eqb (length (lostNodes w)) 0);
  AllNodes := lostNodes;
  PartnerInGraph := fun _ _ _ => false;
  Open := fun _ _ _ _ w => (w, None);
  Deposit := fun _ _ _ w => (w, None);
  Close := fun _ _ w => (w, None)
|}.

(** The manager of node 1 for token 7 with funds 1000 (target 3) over a
    losing ledger with the nodes 11 and 12. *)
Definition lostManager : ConnectionManager LostLedger :=
  with_funds 1000 (NewConnectionManager 1%N 600 30 ∅ 7%N {| lostNodes := [11; 12]%N |}).

(** A token network without any node or channel. *)
Definition emptyNetwork : RefLedger := {| refChannels := []; refNodes := [] |}.

(** Two callbacks of distinct identities, the second giving up from block 7
    on, and a run in which HeaderByNumber and SubscribeNewHead each fail
    once before the subscription is made. *)
Definition twoCallbacks : list AlarmCallback :=
  [neverFails; {| cb_id := 1; cb_call := fun h => if h <? 7 then None
                                                  else Some (errors_New "enough") |}].

Definition retryingRun : list Event :=
  [EvStart; EvHeaderByNumberFails; EvHeaderByNumberOk; EvSubscribeFails;
   EvBlockMined; EvHeaderByNumberOk; EvSubscribeOk; EvRecvHeader;
   EvBlockMined; EvBlockMined; EvRecvHeader; EvRecvHeader].

(** * Properties of the connection manager *)

Section ConnectionManagerFacts.
Context {W : Type} {api : RaidenApi W}.
Implicit Types cm : ConnectionManager W.

(** ** What a RaidenApi call leaves alone *)

Lemma api_Close_frame partner cm :
  let cm' := snd (api_Close partner cm) in
  tokenAddress cm' = tokenAddress cm /\
  blockedTokens cm' = blockedTokens cm /\
  initChannelTarget cm' = initChannelTarget cm /\
  ledger cm' = ledger cm ++ [CallClose (tokenAddress cm) partner].
Proof.
  unfold api_Close. destruct (Close _ _ _) as [w err]. simpl. auto.
Qed.

Lemma api_Deposit_frame partner amount cm :
  let cm' := snd (api_Deposit partner amount cm) in
  tokenAddress cm' = tokenAddress cm /\
  blockedTokens cm' = blockedTokens cm /\
  ledger cm' = ledger cm ++ [CallDeposit (tokenAddress cm) partner amount].
Proof.
  unfold api_Deposit. destruct (Deposit _ _ _ _) as [w err]. simpl. auto.
Qed.

Lemma api_Open_frame partner cm :
  let cm' := snd (api_Open partner cm) in
  tokenAddress cm' = tokenAddress cm /\
  ledger cm' = ledger cm ++ [CallOpen (tokenAddress cm) partner
                               (ConfigSettleTimeout cm) (ConfigRevealTimeout cm)].
Proof.
  unfold api_Open. destruct (Open _ _ _ _ _) as [w err]. simpl. auto.
Qed.

(** The closing loop of closeAll issues one Close per channel, in order, and
    touches neither the token address nor the blocked set. *)
Lemma close_loop_frame (chs : list Channel) cm :
  let cm' := foldl (fun st c => snd (api_Close (PartnerAddress c) st)) cm chs in
  tokenAddress cm' = tokenAddress cm /\
  blockedTokens cm' = blockedTokens cm /\
  initChannelTarget cm' = initChannelTarget cm /\
  ledger cm' =
    ledger cm ++ map (fun c => CallClose (tokenAddress cm) (PartnerAddress c)) chs.
Proof.
  revert cm. induction chs as [|c chs IH]; intros cm; simpl.
  - rewrite app_nil_r. auto.
  - destruct (api_Close_frame (PartnerAddress c) cm) as (Ht & Hb & Hi & Hl).
    destruct (IH (snd (api_Close (PartnerAddress c) cm))) as (Ht' & Hb' & Hi' & Hl').
    simpl in *. rewrite Ht', Hb', Hi', Hl', Ht, Hb, Hi, Hl, <- app_assoc.
    auto.
Qed.

(** ** Connect with non-positive funds *)

(** C7: Connect with [funds <= 0] returns the invalid-argument error at once
    and changes nothing: blocked set, policy parameters, outside state and
    ledger log are those of before, so no channel is opened or funded. *)
Theorem Connect_rejects_nonpositive_funds
    (funds' initialChannelTarget : Z) (reserve : float) cm :
  funds' <= 0 ->
  Connect funds' initialChannelTarget reserve cm
  = (Some (errors_New "connecting needs a positive value for `funds`"), cm).
Proof.
  intros Hf. unfold Connect.
  destruct (Z.leb_spec funds' 0) as [_|Hgt]; [reflexivity | lia].
Qed.

(** ** RetryConnect *)

(** C9: RetryConnect leaves the manager as it is, ledger log included (no
    open, no deposit), when no funds are configured, when the manager is
    leaving, when no undeposited funds remain, or when the number of open
    channels has reached the target. *)
Theorem RetryConnect_noop cm :
  funds cm <= 0 \/ LeaveState cm = true \/ fundsRemaining cm <= 0 \/
  initChannelTarget cm <= Z.of_nat (length (openChannels cm)) ->
  RetryConnect cm = cm.
Proof.
  intros H. unfold RetryConnect.
  destruct (Z.leb_spec (funds cm) 0) as [|Hf]; [reflexivity|].
  destruct (LeaveState cm) eqn:HL; [reflexivity|].
  destruct (Z.leb_spec (fundsRemaining cm) 0) as [|Hr]; [reflexivity|].
  destruct (Z.leb_spec (initChannelTarget cm) (Z.of_nat (length (openChannels cm))))
    as [|Ht]; [reflexivity|].
  destruct H as [H|[H|[H|H]]]; (lia || discriminate).
Qed.

(** ** JoinChannel *)

(** C4: with funds configured and the manager not leaving, JoinChannel
    deposits the minimum of the remaining funds, the funding per partner and
    the partner's own deposit (so never more than the partner's deposit) in
    one Deposit call, and does nothing at all when that minimum is not
    positive. *)
Theorem JoinChannel_deposits_minimum (partner : Address) (partnerDeposit : Z) cm :
  0 < funds cm ->
  LeaveState cm = false ->
  let amount :=
    Z.min (Z.min (fundsRemaining cm) (initialFundingPerPartner cm)) partnerDeposit in
  amount <= partnerDeposit /\
  (amount <= 0 -> JoinChannel partner partnerDeposit cm = cm) /\
  (0 < amount ->
   JoinChannel partner partnerDeposit cm = snd (api_Deposit partner amount cm) /\
   ledger (JoinChannel partner partnerDeposit cm) =
     ledger cm ++ [CallDeposit (tokenAddress cm) partner amount]).
Proof.
  intros Hf HL amount. unfold JoinChannel.
  destruct (Z.leb_spec (funds cm) 0) as [|_]; [lia|]. rewrite HL.
  set (remaining := fundsRemaining cm) in *.
  set (initial := initialFundingPerPartner cm) in *.
  assert (Hmin :
    (if initial <? (if remaining <? partnerDeposit then remaining else partnerDeposit)
     then initial
     else if remaining <? partnerDeposit then remaining else partnerDeposit)
    = amount).
  { subst amount.
    destruct (Z.ltb_spec remaining partnerDeposit);
      destruct (Z.ltb_spec initial remaining);
      destruct (Z.ltb_spec initial partnerDeposit); lia. }
  rewrite Hmin. split; [subst amount; lia|]. split.
  - intros Hle. destruct (Z.leb_spec amount 0); [reflexivity | lia].
  - intros Hpos. destruct (Z.leb_spec amount 0); [lia|].
    split; [reflexivity|].
    apply (api_Deposit_frame partner amount cm).
Qed.

(** ** Leave and closeAll *)

Lemma openChannels_ext cm cm' :
  tokenAddress cm' = tokenAddress cm -> world cm' = world cm ->
  openChannels cm' = openChannels cm.
Proof. unfold openChannels. intros -> ->. reflexivity. Qed.

(** C6: Leave first marks the token network as blocked and then runs the
    closing step from that state.  The channels it closes (one Close call
    each, in the order of the node's channel list) are exactly the channels
    of the token network whose state is opened, restricted to those with at
    least one received transfer when [onlyReceiving] is true. *)
Theorem Leave_blocks_then_closes (fuel : nat)
    (observe : nat -> Channel -> ChannelState) (onlyReceiving : bool) cm :
  let listed := GetChannelList (tokenAddress cm) (world cm) in
  let opened := filter (fun c => State c = CHANNEL_STATE_OPENED) listed in
  let toClose :=
    if onlyReceiving
    then filter (fun c => (0 < length (ReceivedTransfers c))%nat) opened
    else opened in
  let result := Leave fuel observe onlyReceiving cm in
  (forall c, c ∈ toClose <->
     c ∈ listed /\ State c = CHANNEL_STATE_OPENED /\
     (onlyReceiving = true -> ReceivedTransfers c <> [])) /\
  exists marked,
    blockedTokens marked = <[tokenAddress cm := true]> (blockedTokens cm) /\
    tokenAddress marked = tokenAddress cm /\
    world marked = world cm /\
    ledger marked = ledger cm /\
    closeAll onlyReceiving marked = (toClose, snd result) /\
    ledger (snd result) =
      ledger cm ++ map (fun c => CallClose (tokenAddress cm) (PartnerAddress c)) toClose /\
    blockedTokens (snd result) !! tokenAddress cm = Some true /\
    (forall closed, fst result = Some closed -> closed = toClose).
Proof.
  intros listed opened toClose result.
  split.
  { intros c. subst toClose opened. destruct onlyReceiving.
    - rewrite !list_elem_of_filter. split.
      + intros (Hr & Ho & Hin). repeat split; try assumption.
        intros _ Hnil. rewrite Hnil in Hr. simpl in Hr. lia.
      + intros (Hin & Ho & Hr). repeat split; try assumption.
        destruct (ReceivedTransfers c); [by destruct Hr | simpl; lia].
    - rewrite list_elem_of_filter. split.
      + intros (Ho & Hin). repeat split; try assumption. discriminate.
      + intros (Hin & Ho & _). by split. }
  set (cm1 := with_blockedTokens (<[tokenAddress cm := true]> (blockedTokens cm)) cm).
  set (marked := if 0 <? initChannelTarget cm1 then with_initChannelTarget 0 cm1 else cm1).
  assert (Hm : blockedTokens marked = <[tokenAddress cm := true]> (blockedTokens cm)
               /\ tokenAddress marked = tokenAddress cm
               /\ world marked = world cm /\ ledger marked = ledger cm).
  { subst marked. destruct (0 <? initChannelTarget cm1); simpl; auto. }
  destruct Hm as (Hb & Ht & Hw & Hl).
  assert (Hopen : openChannels (with_initChannelTarget 0 marked) = opened).
  { unfold openChannels. simpl. rewrite Ht, Hw. reflexivity. }
  assert (Hsel : (if onlyReceiving
                  then receivingChannels (with_initChannelTarget 0 marked)
                  else openChannels (with_initChannelTarget 0 marked)) = toClose).
  { subst toClose. unfold receivingChannels. rewrite Hopen. reflexivity. }
  assert (Hres : result =
            (match WaitForSettle fuel observe toClose with
             | Some _ => Some toClose | None => None end,
             foldl (fun st c => snd (api_Close (PartnerAddress c) st))
                   (with_initChannelTarget 0 marked) toClose)).
  { subst result. unfold Leave. fold cm1. fold marked. unfold closeAll.
    rewrite Hsel. reflexivity. }
  destruct (close_loop_frame toClose (with_initChannelTarget 0 marked))
    as (Ht' & Hb' & _ & Hl').
  simpl in Ht', Hb', Hl'.
  exists marked. rewrite Hres. simpl.
  repeat split; try assumption.
  - unfold closeAll. rewrite Hsel. reflexivity.
  - rewrite Hl', Hl, Ht. reflexivity.
  - rewrite Hb', Hb. apply lookup_insert_eq.
  - intros closed Hc. destruct (WaitForSettle fuel observe toClose); congruence.
Qed.

(** ** WaitForSettle *)

Lemma scanSettled_found (state : Channel -> ChannelState) (chs : list Channel) :
  scanSettled state chs true = true.
Proof. induction chs as [|c chs IH]; simpl; [|case_decide]; auto. Qed.

Lemma scanSettled_fresh (state : Channel -> ChannelState) (chs : list Channel) :
  scanSettled state chs false = true <->
  exists c, c ∈ chs /\ state c <> CHANNEL_STATE_SETTLED.
Proof.
  induction chs as [|c chs IH]; simpl.
  - split; [discriminate|]. intros (c & Hc & _). by apply elem_of_nil in Hc.
  - case_decide as Hs.
    + split; [|reflexivity]. intros _. exists c. split; [left | done].
    + rewrite IH. split.
      * intros (c' & Hin & Hc'). exists c'. split; [by right | done].
      * intros (c' & Hin & Hc'). apply elem_of_cons in Hin as [->|Hin].
        -- exfalso. tauto.
        -- eauto.
Qed.

(** [found] is never set back to false: once it is true every later round
    sleeps again, whatever the channels report. *)
Lemma WaitForSettle_loop_found (fuel : nat)
    (observe : nat -> Channel -> ChannelState) (chs : list Channel) (k : nat) :
  WaitForSettle_loop fuel observe chs k true = None.
Proof.
  revert k. induction fuel as [|fuel IH]; intros k; simpl; [reflexivity|].
  rewrite scanSettled_found. apply IH.
Qed.

(** WaitForSettle returns (true) exactly when all the channels are settled
    at the very first round of polling ... *)
Lemma WaitForSettle_returns_at_once (fuel : nat)
    (observe : nat -> Channel -> ChannelState) (chs : list Channel) :
  (forall c, c ∈ chs -> observe 0%nat c = CHANNEL_STATE_SETTLED) ->
  WaitForSettle (S fuel) observe chs = Some true.
Proof.
  intros Hall. unfold WaitForSettle. simpl.
  destruct (scanSettled (observe 0%nat) chs false) eqn:Hs; [|reflexivity].
  apply scanSettled_fresh in Hs as (c & Hin & Hc). by specialize (Hall c Hin).
Qed.

(** ... and never returns otherwise, even if they all settle later. *)
Lemma WaitForSettle_never_returns (fuel : nat)
    (observe : nat -> Channel -> ChannelState) (chs : list Channel) (c : Channel) :
  c ∈ chs -> observe 0%nat c <> CHANNEL_STATE_SETTLED ->
  WaitForSettle fuel observe chs = None.
Proof.
  intros Hin Hc. unfold WaitForSettle. destruct fuel as [|fuel]; [reflexivity|].
  simpl. assert (Hs : scanSettled (observe 0%nat) chs false = true).
  { apply scanSettled_fresh. eauto. }
  rewrite Hs. apply WaitForSettle_loop_found.
Qed.

(** ** Choosing and funding new partners *)

Lemma Int64_wrap_small (z : Z) : Int64.in_range z -> Int64.wrap z = z.
Proof.
  unfold Int64.in_range, Int64.min_int, Int64.max_int, Int64.wrap. intros Hz.
  rewrite Z.mod_small; lia.
Qed.

(** The map [known] of findNewPartners, as far as the partners of the open
    channels go. *)
Lemma known_partners (chs : list Channel) (m : gmap Address bool) (n : Address) :
  default false (foldl (fun known c => <[PartnerAddress c := true]> known) m chs !! n)
    = true <->
  default false (m !! n) = true \/ n ∈ map PartnerAddress chs.
Proof.
  revert m. induction chs as [|c chs IH]; intros m; simpl.
  - split; [auto|]. intros [H|H]; [done | by apply elem_of_nil in H].
  - rewrite IH, elem_of_cons.
    destruct (decide (PartnerAddress c = n)) as [->|Hne].
    + rewrite lookup_insert_eq. simpl. tauto.
    + rewrite lookup_insert_ne by done. split; [tauto|].
      intros [H|[H|H]]; [tauto | congruence | tauto].
Qed.

Lemma findNewPartners_eligible (number : Z) cm (partners : list Address) :
  findNewPartners number cm = Some partners ->
  forall p, p ∈ partners -> eligible cm p.
Proof.
  unfold findNewPartners.
  set (known := <[NodeAddress cm := true]> _).
  set (availables := filter _ _).
  assert (Hav : forall p, p ∈ availables -> eligible cm p).
  { intros p [Hk Hin]%list_elem_of_filter. split; [done|].
    assert (Hnode : p <> NodeAddress cm).
    { intros ->. subst known. by rewrite lookup_insert_eq in Hk. }
    split; [done|]. subst known. rewrite lookup_insert_ne in Hk by done.
    assert (Hboot : p <> BOOTSTRAP_ADDR cm).
    { intros ->. by rewrite lookup_insert_eq in Hk. }
    split; [done|]. rewrite lookup_insert_ne in Hk by done.
    intros Hp. assert (Ht : default false
      (foldl (fun known c => <[PartnerAddress c := true]> known)
             (∅ : gmap Address bool) (openChannels cm) !! p) = true).
    { apply known_partners. by right. }
    congruence. }
  intros Hfind p Hp. apply Hav.
  destruct (number <? Z.of_nat (length availables)).
  - destruct (number <? 0); [discriminate|]. injection Hfind as <-.
    by apply (subseteq_take (Z.to_nat number) availables).
  - by injection Hfind as <-.
Qed.

Lemma findNewPartners_length (number : Z) cm (partners : list Address) :
  0 < number ->
  findNewPartners number cm = Some partners ->
  Z.of_nat (length partners) <= number.
Proof.
  unfold findNewPartners. intros Hpos.
  set (availables := filter _ _).
  destruct (Z.ltb_spec number (Z.of_nat (length availables))) as [Hlt|Hge].
  - destruct (Z.ltb_spec number 0); [lia|]. intros [= <-].
    rewrite length_take. lia.
  - intros [= <-]. lia.
Qed.

(** openAndDeposit issues exactly one Open, for the given partner, followed
    by at most one Deposit. *)
Lemma openAndDeposit_calls (partner : Address) (amount : Z) cm :
  let cm' := snd (openAndDeposit partner amount cm) in
  tokenAddress cm' = tokenAddress cm /\
  exists calls, ledger cm' = ledger cm ++ calls /\ openedPartners calls = [partner].
Proof.
  unfold openAndDeposit.
  pose proof (api_Open_frame partner cm) as (Ht & Hl).
  destruct (api_Open partner cm) as [err cm1]. simpl in Ht, Hl.
  destruct err as [e|]; simpl.
  - split; [done|]. eexists. split; [exact Hl | reflexivity].
  - destruct (PartnerInGraph _ _ _); simpl.
    + pose proof (api_Deposit_frame partner amount cm1) as (Ht' & _ & Hl').
      simpl in Ht', Hl'. split; [congruence|].
      eexists. rewrite Hl', Hl, <- app_assoc. split; reflexivity.
    + split; [done|]. eexists. split; [exact Hl | reflexivity].
Qed.

(** The partners opened by the loop are a prefix of the selected ones. *)
Lemma addNewPartners_loop_calls (partners : list Address) cm :
  let cm' := snd (addNewPartners_loop partners cm) in
  exists calls rest,
    ledger cm' = ledger cm ++ calls /\ openedPartners calls ++ rest = partners.
Proof.
  revert cm. induction partners as [|p partners IH]; intros cm; simpl.
  - exists [], []. by rewrite app_nil_r.
  - pose proof (openAndDeposit_calls p (initialFundingPerPartner cm) cm)
      as (_ & calls & Hl & Ho).
    destruct (openAndDeposit p (initialFundingPerPartner cm) cm) as [err cm1].
    simpl in Hl. destruct err as [e|]; simpl.
    + exists calls, partners. by rewrite Ho.
    + destruct (IH cm1) as (calls' & rest & Hl' & Ho').
      exists (calls ++ calls'), rest. split.
      * by rewrite Hl', Hl, <- app_assoc.
      * unfold openedPartners in *. by rewrite omap_app, Ho, <- app_assoc, Ho'.
Qed.

(** Every partner that the channel-opening step (addNewPartners, run by
    Connect and RetryConnect) opens a channel with is a node of the token
    network's graph other than the node itself, the bootstrap address and
    the partners of the channels already open; and when
    [initChannelTarget - open channel count] is representable as an int64,
    at most that many channels are opened. *)
Theorem addNewPartners_opens_eligible_partners cm :
  let opened := openedPartners (newCalls cm (snd (addNewPartners cm))) in
  let wanted := initChannelTarget cm - Z.of_nat (length (openChannels cm)) in
  (forall p, p ∈ opened -> eligible cm p) /\
  (Int64.in_range wanted -> Z.of_nat (length opened) <= Z.max 0 wanted).
Proof.
  intros opened wanted. subst opened. unfold addNewPartners, Int64.sub.
  fold wanted.
  destruct (Z.leb_spec (Int64.wrap wanted) 0) as [Hle|Hpos].
  - unfold newCalls. simpl. rewrite drop_all. simpl. split; [|lia].
    intros p Hp. by apply elem_of_nil in Hp.
  - destruct (findNewPartners (Int64.wrap wanted) cm) as [partners|] eqn:Hfind.
    + destruct (addNewPartners_loop_calls partners cm) as (calls & rest & Hl & Ho).
      unfold newCalls. rewrite Hl, drop_app_length. split.
      * intros p Hp. apply (findNewPartners_eligible _ _ _ Hfind).
        rewrite <- Ho. apply elem_of_app. by left.
      * intros Hr. rewrite (Int64_wrap_small _ Hr) in Hpos, Hfind.
        pose proof (findNewPartners_length _ _ _ Hpos Hfind) as Hlen.
        rewrite <- Ho, length_app in Hlen. lia.
    + unfold newCalls. simpl. rewrite drop_all. simpl. split; [|lia].
      intros p Hp. by apply elem_of_nil in Hp.
Qed.

(** RetryConnect only reaches the channel-opening step with a target of at
    least one, where the difference cannot leave the int64 range. *)
Lemma RetryConnect_target_representable cm :
  Int64.in_range (initChannelTarget cm) ->
  RetryConnect cm <> cm ->
  Int64.in_range (initChannelTarget cm - Z.of_nat (length (openChannels cm))) /\
  RetryConnect cm = snd (addNewPartners cm).
Proof.
  unfold RetryConnect, LeaveState, Int64.in_range, Int64.min_int, Int64.max_int.
  intros Hr Hneq.
  destruct (funds cm <=? 0); [done|].
  destruct (blocked cm); simpl in *; [done|].
  destruct (Z.ltb_spec (initChannelTarget cm) 1); [done|].
  destruct (fundsRemaining cm <=? 0); [done|].
  destruct (Z.leb_spec (initChannelTarget cm) (Z.of_nat (length (openChannels cm))));
    [done|].
  split; [lia | reflexivity].
Qed.

End ConnectionManagerFacts.

(** * Worked examples on the reference ledger *)

Example Connect_1000_4_quarter :
  let '(err, cm) := Connect 1000 4 0.25%float (refManager tenPartners) in
  err = None /\
  initialFundingPerPartner cm = 187 /\
  ledger cm =
    [CallOpen 7 11 600 30; CallDeposit 7 11 187;
     CallOpen 7 12 600 30; CallDeposit 7 12 187;
     CallOpen 7 13 600 30; CallDeposit 7 13 187;
     CallOpen 7 14 600 30; CallDeposit 7 14 187]%N.
Proof. vm_compute. auto. Qed.

Example Leave_only_receiving_closes_A :
  ledger (snd (Leave 3 settledFromSecondPoll true (manager 1000 2 0.25%float channelsAB)))
  = [CallClose 7 5]%N.
Proof. vm_compute. reflexivity. Qed.

Example Leave_all_closes_A_and_B :
  ledger (snd (Leave 3 settledFromSecondPoll false (manager 1000 2 0.25%float channelsAB)))
  = [CallClose 7 5; CallClose 7 6]%N.
Proof. vm_compute. reflexivity. Qed.

Example JoinChannel_500_300_400 :
  let cm := manager 1600 2 0.5%float (oneChannel 1300) in
  fundsRemaining cm = 300 /\ initialFundingPerPartner cm = 400 /\
  ledger (JoinChannel 5%N 500 cm) = [CallDeposit 7 5 300]%N.
Proof. vm_compute. auto. Qed.

Example RetryConnect_opens_when_below_target :
  ledger (RetryConnect (manager 1000 4 0.25%float tenPartners))
  = [CallOpen 7 11 600 30; CallDeposit 7 11 187;
     CallOpen 7 12 600 30; CallDeposit 7 12 187;
     CallOpen 7 13 600 30; CallDeposit 7 13 187;
     CallOpen 7 14 600 30; CallDeposit 7 14 187]%N.
Proof. vm_compute. reflexivity. Qed.

(** ** Witnesses *)

Lemma Connect_rejects_nonpositive_funds_witness :
  0 <= 0 /\
  Connect 0 4 0.25%float (refManager tenPartners)
  = (Some (errors_New "connecting needs a positive value for `funds`"),
     refManager tenPartners).
Proof.
  split; [lia|].
  apply (Connect_rejects_nonpositive_funds 0 4 0.25%float
           (refManager tenPartners)). lia.
Defined.

Lemma RetryConnect_noop_witness :
  let cm := manager 1000 1 0.25%float (oneChannel 0) in
  initChannelTarget cm <= Z.of_nat (length (openChannels cm)) /\
  RetryConnect cm = cm.
Proof.
  assert (H : initChannelTarget (manager 1000 1 0.25%float (oneChannel 0))
              <= Z.of_nat (length (openChannels (manager 1000 1 0.25%float (oneChannel 0))))).
  { vm_compute. discriminate. }
  split; [exact H|].
  apply (RetryConnect_noop (manager 1000 1 0.25%float (oneChannel 0))).
  right. right. right. exact H.
Defined.

Lemma JoinChannel_deposits_minimum_witness :
  let cm := manager 1600 2 0.5%float (oneChannel 1300) in
  0 < funds cm /\ LeaveState cm = false /\
  ledger (JoinChannel 5%N 500 cm) = ledger cm ++ [CallDeposit 7%N 5%N 300].
Proof.
  assert (Hf : 0 < funds (manager 1600 2 0.5%float (oneChannel 1300))).
  { vm_compute. reflexivity. }
  assert (HL : LeaveState (manager 1600 2 0.5%float (oneChannel 1300)) = false).
  { vm_compute. reflexivity. }
  split; [exact Hf|]. split; [exact HL|].
  destruct (JoinChannel_deposits_minimum 5%N 500
              (manager 1600 2 0.5%float (oneChannel 1300)) Hf HL) as (_ & _ & H).
  destruct H as [_ H]; [vm_compute; reflexivity|]. exact H.
Defined.

Example addNewPartners_opens_one_partner :
  let cm := manager 1000 2 0.25%float (oneChannel 0) in
  Int64.in_range (initChannelTarget cm - Z.of_nat (length (openChannels cm))) /\
  openedPartners (newCalls cm (snd (addNewPartners cm))) = [6%N] /\
  eligible cm 6%N /\
  Z.of_nat (length (openedPartners (newCalls cm (snd (addNewPartners cm))))) <= 1.
Proof.
  set (cm := manager 1000 2 0.25%float (oneChannel 0)).
  assert (Hr : Int64.in_range (initChannelTarget cm - Z.of_nat (length (openChannels cm)))).
  { vm_compute. split; discriminate. }
  assert (Ho : openedPartners (newCalls cm (snd (addNewPartners cm))) = [6%N]).
  { vm_compute. reflexivity. }
  destruct (addNewPartners_opens_eligible_partners cm) as [He Hb].
  split; [exact Hr|]. split; [exact Ho|]. split.
  - apply He. rewrite Ho. apply list_elem_of_here.
  - exact (Hb Hr).
Qed.

(** ** The count of new partners when the subtraction overflows *)

(** C8 on the code: with [initChannelTarget] at the least int64 and one
    channel open, [int(initChannelTarget) - len(openChannels)] wraps around
    to the greatest int64, and the channel-opening step opens a channel with
    the eligible node 6 although the target minus the open-channel count is
    negative; the bound of at most that many new partners is broken. *)
Theorem addNewPartners_count_wraps_around :
  let cm := manager 1 Int64.min_int 0%float (oneChannel 0) in
  openedPartners (newCalls cm (snd (addNewPartners cm))) = [6%N] /\
  ~ Z.of_nat (length (openedPartners (newCalls cm (snd (addNewPartners cm)))))
    <= Z.max 0 (initChannelTarget cm - Z.of_nat (length (openChannels cm))).
Proof.
  split; [vm_compute; reflexivity|].
  vm_compute. intros H. apply H. reflexivity.
Qed.

Example Connect_with_least_target_opens :
  ledger (snd (Connect 1 Int64.min_int 0%float (refManager (oneChannel 0))))
  = [CallOpen 7 6 600 30; CallDeposit 7 6 0]%N.
Proof. vm_compute. reflexivity. Qed.

(** ** Waiting for settlement *)

(** C1 on the code: channel A is closed by Leave, is still reported closed
    at the first round of polling and is reported settled at every later
    round.  WaitForSettle on the channels that closeAll returned, and with it
    Leave, has not returned after any number of rounds: [found], once set,
    is never cleared. *)
Theorem Leave_waits_forever_for_settled_channels :
  let cm := manager 1000 2 0.25%float channelsAB in
  fst (closeAll true cm) = [chA] /\
  (forall k c, (1 <= k)%nat -> settledFromSecondPoll k c = CHANNEL_STATE_SETTLED) /\
  forall fuel,
    WaitForSettle fuel settledFromSecondPoll (fst (closeAll true cm)) = None /\
    fst (Leave fuel settledFromSecondPoll true cm) = None.
Proof.
  intros cm.
  assert (Hclosed : fst (closeAll true cm) = [chA]) by (vm_compute; reflexivity).
  split; [exact Hclosed|]. split.
  - intros [|k] c Hk; [lia | reflexivity].
  - intros fuel.
    assert (Hwait : WaitForSettle fuel settledFromSecondPoll [chA] = None).
    { apply (WaitForSettle_never_returns fuel settledFromSecondPoll [chA] chA).
      - apply list_elem_of_here.
      - discriminate. }
    split; [rewrite Hclosed; exact Hwait|].
    assert (HL : fst (Leave fuel settledFromSecondPoll true cm) =
                 match WaitForSettle fuel settledFromSecondPoll [chA] with
                 | Some _ => Some [chA]
                 | None => None
                 end).
    { reflexivity. }
    rewrite HL, Hwait. reflexivity.
Qed.

(** ** The funding per partner *)

Lemma initialFundingPerPartner_formula {W : Type} (cm : ConnectionManager W) :
  0 < initChannelTarget cm ->
  initialFundingPerPartner cm
  = fundingFormula (funds cm) (initChannelTarget cm) (joinableFundsTarget cm).
Proof.
  intros Ht. unfold initialFundingPerPartner, fundingFormula.
  destruct (Z.ltb_spec 0 (initChannelTarget cm)); [reflexivity | lia].
Qed.

(** The amount is computed in float64.  The lemmas below follow the three
    operations of the formula (the share [1 - r], the product with the
    funds, the division by the target) through the specification of
    binary64, to find when the integer part of the result is the exact
    floor. *)

(** *** Number of bits *)

Lemma fexp_eq (x : Z) : fexp prec emax x = Z.max (x - 53) (-1074).
Proof. reflexivity. Qed.

Lemma digits2_pos_size (p : positive) : digits2_pos p = Pos.size p.
Proof. induction p; simpl; congruence. Qed.

Lemma Zdigits2_log2 (n : Z) : 0 < n -> Zdigits2 n = Z.log2 n + 1.
Proof.
  destruct n as [|p|p]; try lia. intros _. simpl.
  rewrite digits2_pos_size. destruct p; simpl; lia.
Qed.

Lemma Zdigits2_bounds (n : Z) :
  0 < n -> 2 ^ (Zdigits2 n - 1) <= n < 2 ^ Zdigits2 n /\ 0 < Zdigits2 n.
Proof.
  intros Hn. rewrite Zdigits2_log2 by done.
  pose proof (Z.log2_spec n Hn) as H. pose proof (Z.log2_nonneg n).
  replace (Z.log2 n + 1 - 1) with (Z.log2 n) by lia.
  replace (Z.log2 n + 1) with (Z.succ (Z.log2 n)) by lia. lia.
Qed.

Lemma Zdigits2_unique (n d : Z) :
  0 < d -> 2 ^ (d - 1) <= n < 2 ^ d -> Zdigits2 n = d.
Proof.
  intros Hd Hn.
  assert (0 < n) by (pose proof (Z.pow_pos_nonneg 2 (d - 1)); lia).
  rewrite Zdigits2_log2 by done.
  rewrite (Z.log2_unique n (d - 1)); [lia | lia |].
  replace (Z.succ (d - 1)) with d by lia. done.
Qed.

Lemma Zdigits2_mul_pow2 (n z : Z) :
  0 < n -> 0 <= z -> Zdigits2 (n * 2 ^ z) = Zdigits2 n + z.
Proof.
  intros Hn Hz.
  assert (0 < n * 2 ^ z) by (pose proof (Z.pow_pos_nonneg 2 z); nia).
  rewrite !Zdigits2_log2 by done. rewrite Z.log2_mul_pow2 by lia. lia.
Qed.

(** *** Shifting right *)

Lemma false_true_iff : false = true <-> False.
Proof. split; [discriminate | tauto]. Qed.

Lemma true_true_iff : true = true <-> True.
Proof. tauto. Qed.

Lemma shr_1_spec (mrs : shr_record) (R D : Z) :
  shr_inv mrs R D -> shr_by 1 mrs (shr_1 mrs) R D.
Proof.
  destruct mrs as [m r s]. unfold shr_by, shr_inv. simpl.
  intros (Hm & HR & Hr & Hs).
  assert (Hrs : r || s = true <-> R <> 0).
  { rewrite orb_true_iff, Hr, Hs. lia. }
  change (2 ^ 1) with 2.
  destruct m as [|[p|p|]|p]; simpl; try lia;
    rewrite Hrs, ?false_true_iff, ?true_true_iff.
  - rewrite Z.mod_0_l by lia. split; [reflexivity|]. lia.
  - rewrite Pos2Z.inj_xI.
    assert (H1 : (2 * Z.pos p + 1) / 2 = Z.pos p) by (Z.div_mod_to_equations; lia).
    assert (H2 : (2 * Z.pos p + 1) mod 2 = 1) by (Z.div_mod_to_equations; lia).
    rewrite H1, H2. split; [reflexivity|]. lia.
  - rewrite Pos2Z.inj_xO.
    assert (H1 : (2 * Z.pos p) / 2 = Z.pos p) by (Z.div_mod_to_equations; lia).
    assert (H2 : (2 * Z.pos p) mod 2 = 0) by (Z.div_mod_to_equations; lia).
    rewrite H1, H2. split; [reflexivity|]. lia.
  - assert (H1 : 1 / 2 = 0) by reflexivity.
    assert (H2 : 1 mod 2 = 1) by reflexivity.
    rewrite H2. split; [reflexivity|]. lia.
Qed.

Lemma shr_by_trans (k1 k2 : Z) (mrs mrs1 mrs2 : shr_record) (R D : Z) :
  0 <= k1 -> 0 <= k2 -> 0 < D ->
  shr_by k1 mrs mrs1 R D ->
  (forall R1 D1, shr_inv mrs1 R1 D1 -> shr_by k2 mrs1 mrs2 R1 D1) ->
  shr_by (k1 + k2) mrs mrs2 R D.
Proof.
  intros Hk1 Hk2 HD [Hm1 Hinv1] H2.
  destruct (H2 _ _ Hinv1) as [Hm2 Hinv2].
  assert (Hp1 : 0 < 2 ^ k1) by (apply Z.pow_pos_nonneg; lia).
  assert (Hp2 : 0 < 2 ^ k2) by (apply Z.pow_pos_nonneg; lia).
  split.
  - rewrite Hm2, Hm1, Z.pow_add_r, Z.div_div by lia. reflexivity.
  - rewrite Z.pow_add_r by lia.
    rewrite Z.rem_mul_r by lia.
    rewrite Hm1 in Hinv2.
    replace ((shr_m mrs mod 2 ^ k1 + 2 ^ k1 * ((shr_m mrs / 2 ^ k1) mod 2 ^ k2)) * D + R)
      with ((shr_m mrs / 2 ^ k1) mod 2 ^ k2 * (2 ^ k1 * D) + (shr_m mrs mod 2 ^ k1 * D + R))
      by ring.
    replace (2 ^ k1 * 2 ^ k2 * D) with (2 ^ k2 * (2 ^ k1 * D)) by ring.
    exact Hinv2.
Qed.

Lemma shr_inv_pos (mrs : shr_record) (R D : Z) : shr_inv mrs R D -> 0 < D.
Proof. unfold shr_inv. lia. Qed.

Lemma iter_pos_shr_1 (n : positive) (mrs : shr_record) (R D : Z) :
  shr_inv mrs R D -> shr_by (Z.pos n) mrs (SpecFloat.iter_pos shr_1 n mrs) R D.
Proof.
  revert mrs R D. induction n as [n IH|n IH|]; intros mrs R D Hinv; simpl.
  - rewrite Pos2Z.inj_xI.
    replace (2 * Z.pos n + 1) with (1 + (Z.pos n + Z.pos n)) by lia.
    pose proof (shr_inv_pos _ _ _ Hinv).
    apply (shr_by_trans _ _ _ (shr_1 mrs)); [lia | lia | done | by apply shr_1_spec |].
    intros R1 D1 Hinv1. pose proof (shr_inv_pos _ _ _ Hinv1).
    apply (shr_by_trans _ _ _ (SpecFloat.iter_pos shr_1 n (shr_1 mrs))); [lia | lia | done | by apply IH |].
    intros R2 D2 Hinv2. by apply IH.
  - rewrite Pos2Z.inj_xO.
    replace (2 * Z.pos n) with (Z.pos n + Z.pos n) by lia.
    pose proof (shr_inv_pos _ _ _ Hinv).
    apply (shr_by_trans _ _ _ (SpecFloat.iter_pos shr_1 n mrs)); [lia | lia | done | by apply IH |].
    intros R2 D2 Hinv2. by apply IH.
  - by apply shr_1_spec.
Qed.

(** *** Rounding *)

Lemma Zdigits2_le (n b : Z) : 0 <= b -> 0 <= n < 2 ^ b -> Zdigits2 n <= b.
Proof.
  intros Hb Hn. destruct (decide (n = 0)) as [->|Hne]; [simpl; lia|].
  destruct (Zdigits2_bounds n) as [[Hlo _] Hd]; [lia|].
  assert (2 ^ (Zdigits2 n - 1) < 2 ^ b) by lia.
  apply Z.pow_lt_mono_r_iff in H; lia.
Qed.

Lemma Zdigits2_gt (n b : Z) : 0 <= b -> 2 ^ b <= n -> b < Zdigits2 n.
Proof.
  intros Hb Hn.
  assert (0 < n) by (pose proof (Z.pow_pos_nonneg 2 b); lia).
  destruct (Zdigits2_bounds n) as [[_ Hhi] Hd]; [lia|].
  assert (2 ^ b < 2 ^ Zdigits2 n) by lia.
  apply Z.pow_lt_mono_r_iff in H0; lia.
Qed.

Lemma shr_record_of_loc_inv (m : Z) (l : location) (R D : Z) :
  0 <= m -> loc_inv l R D -> shr_inv (shr_record_of_loc m l) R D.
Proof.
  unfold loc_inv, shr_inv. intros Hm [HR Hl].
  destruct l as [|[]]; simpl; rewrite ?false_true_iff, ?true_true_iff; lia.
Qed.

Lemma shr_spec (mrs : shr_record) (e n R D : Z) :
  shr_inv mrs R D ->
  exists mrs', shr mrs e n = (mrs', e + Z.max 0 n) /\
               shr_by (Z.max 0 n) mrs mrs' R D.
Proof.
  intros Hinv.
  assert (H0 : shr_by 0 mrs mrs R D).
  { unfold shr_by. change (2 ^ 0) with 1.
    rewrite Z.div_1_r, Z.mod_1_r.
    replace (0 * D + R) with R by ring. replace (1 * D) with D by ring. done. }
  destruct n as [|p|p]; simpl.
  - exists mrs. by rewrite Z.add_0_r.
  - exists (SpecFloat.iter_pos shr_1 p mrs). split; [reflexivity|].
    by apply iter_pos_shr_1.
  - exists mrs. by rewrite Z.add_0_r.
Qed.

Lemma round_nearest_even_spec (mrs : shr_record) (R D : Z) :
  shr_inv mrs R D ->
  let mr := round_nearest_even (shr_m mrs) (loc_of_shr_record mrs) in
  (mr = shr_m mrs \/ (mr = shr_m mrs + 1 /\ D <= 2 * R)) /\
  (R = 0 -> mr = shr_m mrs).
Proof.
  destruct mrs as [m r s]. unfold shr_inv. simpl.
  intros (Hm & HR & Hr & Hs).
  destruct r, s; simpl; rewrite ?false_true_iff, ?true_true_iff in *;
    try destruct (Z.even m); lia.
Qed.

Lemma binary_round_aux_spec (s : bool) (m e : Z) (l : location) (R D : Z) :
  0 <= m -> loc_inv l R D ->
  let k := Z.max 0 (fexp prec emax (Zdigits2 m + e) - e) in
  exists mr,
    (mr = m / 2 ^ k \/
     (mr = m / 2 ^ k + 1 /\ 2 ^ k * D <= 2 * (m mod 2 ^ k * D + R))) /\
    (m mod 2 ^ k * D + R = 0 -> mr = m / 2 ^ k) /\
    0 <= mr <= 2 ^ 53 /\
    binary_round_aux prec emax s m e l =
      if mr =? 0 then S754_zero s
      else if mr <? 2 ^ 53
           then if e + k <=? 971 then S754_finite s (Z.to_pos mr) (e + k)
                else S754_infinity s
           else if e + k + 1 <=? 971 then S754_finite s (Z.to_pos (2 ^ 52)) (e + k + 1)
                else S754_infinity s.
Proof.
  intros Hm Hl k.
  unfold binary_round_aux, shr_fexp.
  destruct (shr_spec (shr_record_of_loc m l) e
              (fexp prec emax (Zdigits2 m + e) - e) R D) as (mrs' & -> & Hm' & Hinv');
    [by apply shr_record_of_loc_inv|].
  fold k in Hm', Hinv' |- *.
  assert (Hsm : shr_m (shr_record_of_loc m l) = m) by (by destruct l as [|[]]).
  rewrite Hsm in Hm', Hinv'.
  set (mr := round_nearest_even (shr_m mrs') (loc_of_shr_record mrs')).
  destruct (round_nearest_even_spec mrs' _ _ Hinv') as [Hmr Hex]. fold mr in Hmr, Hex.
  rewrite Hm' in Hmr, Hex.
  assert (Hk : 0 <= k) by lia.
  assert (Hpk : 0 < 2 ^ k) by (apply Z.pow_pos_nonneg; lia).
  assert (Hfe : fexp prec emax (Zdigits2 m + e) <= e + k) by lia.
  rewrite fexp_eq in Hfe.
  assert (Hq : 0 <= m / 2 ^ k < 2 ^ 53).
  { split; [apply Z.div_pos; lia|].
    apply Z.div_lt_upper_bound; [lia|].
    destruct (decide (m = 0)) as [->|Hne]; [lia|].
    destruct (Zdigits2_bounds m) as [[_ Hhi] Hd]; [lia|].
    rewrite <- Z.pow_add_r by lia.
    eapply Z.lt_le_trans; [exact Hhi|]. apply Z.pow_le_mono_r; lia. }
  exists mr. split; [exact Hmr|]. split; [exact Hex|].
  assert (Hrange : 0 <= mr <= 2 ^ 53) by lia.
  split; [exact Hrange|].
  destruct (Z.eqb_spec mr 0) as [->|Hne].
  - (* the rounded mantissa is zero *)
    simpl. rewrite fexp_eq.
    replace (Z.max (0 + (e + k) - 53) (-1074) - (e + k)) with
      (Z.max (e + k - 53) (-1074) - (e + k)) by (f_equal; f_equal; lia).
    destruct (Z.max (e + k - 53) (-1074) - (e + k)) as [|p|p] eqn:Hp; try reflexivity.
    lia.
  - destruct (Z.ltb_spec mr (2 ^ 53)) as [Hlt|Hge].
    + (* no second shift *)
      assert (Hd : Zdigits2 mr <= 53) by (apply Zdigits2_le; lia).
      assert (Hd0 : 0 < Zdigits2 mr) by (apply Zdigits2_bounds; lia).
      assert (Hs0 : shr_record_of_loc mr loc_Exact = Build_shr_record mr false false)
        by reflexivity.
      rewrite fexp_eq.
      destruct (Z.max (Zdigits2 mr + (e + k) - 53) (-1074) - (e + k)) as [|p|p] eqn:Hp;
        try lia; simpl.
      * destruct mr as [|pm|pm]; try lia. reflexivity.
      * destruct mr as [|pm|pm]; try lia. reflexivity.
    + (* the rounding carried into a 54th bit *)
      assert (Hmr53 : mr = 2 ^ 53) by lia.
      rewrite Hmr53. rewrite fexp_eq.
      change (Zdigits2 (2 ^ 53)) with 54.
      replace (Z.max (54 + (e + k) - 53) (-1074) - (e + k)) with 1 by lia.
      simpl. reflexivity.
Qed.

(** *** Values that need no rounding *)

Lemma rep_shift (N E z : Z) :
  0 < N -> 0 <= z -> N * 2 ^ z < 2 ^ 53 -> rep (N * 2 ^ z) (E - z) = rep N E.
Proof.
  intros HN Hz Hlt. unfold rep.
  rewrite Zdigits2_mul_pow2 by lia.
  assert (Hd : Zdigits2 (N * 2 ^ z) <= 53).
  { apply Zdigits2_le; [lia|]. pose proof (Z.pow_pos_nonneg 2 z). nia. }
  rewrite Zdigits2_mul_pow2 in Hd by lia.
  f_equal; [|lia]. f_equal.
  rewrite <- Z.mul_assoc, <- Z.pow_add_r by lia. f_equal. f_equal. lia.
Qed.

Lemma mantissa53 (N : Z) :
  0 < N < 2 ^ 53 ->
  2 ^ 52 <= N * 2 ^ (53 - Zdigits2 N) < 2 ^ 53 /\ 0 < Zdigits2 N <= 53.
Proof.
  intros HN.
  destruct (Zdigits2_bounds N) as [[Hlo Hhi] Hd]; [lia|].
  assert (Hd53 : Zdigits2 N <= 53) by (apply Zdigits2_le; lia).
  split; [|lia].
  assert (Hp : 0 < 2 ^ (53 - Zdigits2 N)) by (apply Z.pow_pos_nonneg; lia).
  assert (H52 : 2 ^ 52 = 2 ^ (Zdigits2 N - 1) * 2 ^ (53 - Zdigits2 N)).
  { rewrite <- Z.pow_add_r by lia. f_equal. lia. }
  assert (H53 : 2 ^ 53 = 2 ^ Zdigits2 N * 2 ^ (53 - Zdigits2 N)).
  { rewrite <- Z.pow_add_r by lia. f_equal. lia. }
  rewrite H52, H53 at 1. nia.
Qed.

Lemma loc_inv_exact : loc_inv loc_Exact 0 1.
Proof. unfold loc_inv. lia. Qed.

(** A mantissa of 53 significant bits followed by [k] zeros is rounded to
    itself. *)
Lemma binary_round_aux_exact (N E k : Z) :
  0 < N < 2 ^ 53 -> 0 <= k -> -1074 <= E + Zdigits2 N - 53 <= 971 ->
  binary_round_aux prec emax false (N * 2 ^ (53 - Zdigits2 N) * 2 ^ k)
    (E + Zdigits2 N - 53 - k) loc_Exact
  = rep N E.
Proof.
  intros HN Hk HE.
  destruct (mantissa53 N HN) as [HM Hd].
  set (M := N * 2 ^ (53 - Zdigits2 N)) in *.
  assert (Hpk : 0 < 2 ^ k) by (apply Z.pow_pos_nonneg; lia).
  assert (Hdm : Zdigits2 (M * 2 ^ k) = 53 + k).
  { rewrite Zdigits2_mul_pow2 by lia. f_equal. apply Zdigits2_unique; lia. }
  destruct (binary_round_aux_spec false (M * 2 ^ k) (E + Zdigits2 N - 53 - k)
              loc_Exact 0 1) as (mr & _ & Hex & _ & ->); [nia | apply loc_inv_exact |].
  rewrite Hdm, fexp_eq in Hex |- *.
  replace (Z.max 0 (Z.max (53 + k + (E + Zdigits2 N - 53 - k) - 53) (-1074)
                    - (E + Zdigits2 N - 53 - k))) with k in * by lia.
  rewrite Z.mod_mul, Z.div_mul in Hex by lia.
  rewrite Hex by lia.
  destruct (Z.eqb_spec M 0); [lia|].
  destruct (Z.ltb_spec M (2 ^ 53)); [|lia].
  replace (E + Zdigits2 N - 53 - k + k) with (E + Zdigits2 N - 53) by lia.
  destruct (Z.leb_spec (E + Zdigits2 N - 53) 971); [|lia].
  reflexivity.
Qed.

Lemma binary_normalize_rep (N z e : Z) :
  0 < N < 2 ^ 53 -> 0 <= z -> -1074 <= e + z + Zdigits2 N - 53 <= 971 ->
  binary_normalize prec emax (N * 2 ^ z) e false = rep N (e + z).
Proof.
  intros HN Hz HE.
  assert (Hpz : 0 < 2 ^ z) by (apply Z.pow_pos_nonneg; lia).
  destruct (mantissa53 N HN) as [HM Hd].
  destruct (N * 2 ^ z) as [|n|n] eqn:Hn; [nia | | nia].
  unfold binary_normalize, binary_round.
  change (Z.pos (digits2_pos n)) with (Zdigits2 (Z.pos n)).
  rewrite <- Hn, Zdigits2_mul_pow2, fexp_eq by lia.
  replace (Z.max (Zdigits2 N + z + e - 53) (-1074)) with (Zdigits2 N + z + e - 53) by lia.
  unfold shl_align.
  destruct (Zdigits2 N + z + e - 53 - e) as [|d|d] eqn:Hd'.
  - rewrite <- Hn.
    replace e with (e + z + Zdigits2 N - 53 - (z + Zdigits2 N - 53)) at 1 by lia.
    replace (N * 2 ^ z) with (N * 2 ^ (53 - Zdigits2 N) * 2 ^ (z + Zdigits2 N - 53)).
    + apply binary_round_aux_exact; lia.
    + replace (z + Zdigits2 N - 53) with 0 by lia.
      replace (53 - Zdigits2 N) with z by lia. ring.
  - rewrite <- Hn.
    replace e with (e + z + Zdigits2 N - 53 - (z + Zdigits2 N - 53)) at 1 by lia.
    replace (N * 2 ^ z) with (N * 2 ^ (53 - Zdigits2 N) * 2 ^ (z + Zdigits2 N - 53)).
    + apply binary_round_aux_exact; lia.
    + rewrite <- Z.mul_assoc, <- Z.pow_add_r by lia. f_equal. f_equal. lia.
  - change (Pos.iter xO n d) with (shift_pos d n).
    rewrite shift_pos_correct. change (Z.pow_pos 2 d) with (2 ^ Z.pos d).
    rewrite <- Hn.
    replace (2 ^ Z.pos d * (N * 2 ^ z)) with (N * 2 ^ (53 - Zdigits2 N) * 2 ^ 0).
    + replace (Zdigits2 N + z + e - 53) with (e + z + Zdigits2 N - 53 - 0) by lia.
      apply binary_round_aux_exact; lia.
    + replace (53 - Zdigits2 N) with (Z.pos d + z) by lia.
      rewrite Z.pow_add_r by lia. change (2 ^ 0) with 1. ring.
Qed.

(** *** Conversion and product *)

Lemma rep_valid (N E : Z) :
  0 < N < 2 ^ 53 -> -1074 <= E + Zdigits2 N - 53 <= 971 ->
  valid_binary (rep N E) = true.
Proof.
  intros HN HE. destruct (mantissa53 N HN) as [HM Hd].
  unfold rep, SpecFloat.valid_binary, bounded, canonical_mantissa.
  set (M := N * 2 ^ (53 - Zdigits2 N)) in *.
  assert (HdM : Z.pos (digits2_pos (Z.to_pos M)) = 53).
  { change (Z.pos (digits2_pos (Z.to_pos M))) with (Zdigits2 (Z.pos (Z.to_pos M))).
    rewrite Z2Pos.id by lia. apply Zdigits2_unique; lia. }
  rewrite HdM, fexp_eq. apply andb_true_iff. split.
  - apply Z.eqb_eq. lia.
  - apply Z.leb_le. change (emax - prec) with 971. lia.
Qed.

(** The conversion of a positive int64 to float64: exact below 2^53, and a
    float of integer value at least 2^53 from there on. *)
Lemma Prim2SF_of_int64 (t : Z) :
  0 < t < 2 ^ 63 ->
  exists t' E,
    Prim2SF (Float64.of_int64 t) = rep t' E /\
    0 < t' < 2 ^ 53 /\ 0 <= E <= 11 /\
    ((t < 2 ^ 53 /\ t' = t /\ E = 0) \/ (2 ^ 53 <= t /\ 2 ^ 53 <= t' * 2 ^ E)).
Proof.
  intros Ht. unfold Float64.of_int64.
  destruct (Z.lt_ge_cases t (2 ^ 53)) as [Hsmall|Hbig].
  - exists t, 0. destruct (mantissa53 t) as [_ Hd]; [lia|].
    replace t with (t * 2 ^ 0) at 1 by (change (2 ^ 0) with 1; lia).
    rewrite binary_normalize_rep by lia.
    split; [apply Prim2SF_SF2Prim, rep_valid; lia|]. lia.
  - assert (Hd : 54 <= Zdigits2 t <= 63).
    { split; [pose proof (Zdigits2_gt t 53); lia | apply Zdigits2_le; lia]. }
    destruct (Zdigits2_bounds t) as [[Hlo _] _]; [lia|].
    set (k := Zdigits2 t - 53) in *.
    assert (Hpk : 0 < 2 ^ k) by (apply Z.pow_pos_nonneg; lia).
    assert (Hq : 2 ^ 52 <= t / 2 ^ k).
    { apply Z.div_le_lower_bound; [lia|].
      rewrite <- Z.pow_add_r by lia.
      replace (k + 52) with (Zdigits2 t - 1) by (subst k; lia). exact Hlo. }
    assert (Hnorm : binary_normalize prec emax t 0 false
                    = binary_round_aux prec emax false t 0 loc_Exact).
    { destruct t as [|p|p]; try lia.
      unfold binary_normalize, binary_round, shl_align.
      change (Z.pos (digits2_pos p)) with (Zdigits2 (Z.pos p)).
      rewrite Z.add_0_r, fexp_eq.
      destruct (Z.max (Zdigits2 (Z.pos p) - 53) (-1074) - 0) as [|d|d] eqn:Hm;
        [lia | reflexivity | lia]. }
    rewrite Hnorm.
    destruct (binary_round_aux_spec false t 0 loc_Exact 0 1)
      as (mr & Hmr & _ & Hmr53 & ->); [lia | apply loc_inv_exact |].
    rewrite Z.add_0_r, fexp_eq in Hmr |- *.
    replace (Z.max 0 (Z.max (Zdigits2 t - 53) (-1074) - 0)) with k in * by (subst k; lia).
    destruct (Z.eqb_spec mr 0) as [|_]; [lia|].
    destruct (Z.ltb_spec mr (2 ^ 53)) as [Hlt|Hge].
    + destruct (Z.leb_spec (0 + k) 971); [|lia].
      assert (Hrep : S754_finite false (Z.to_pos mr) (0 + k) = rep mr k).
      { unfold rep. rewrite (Zdigits2_unique mr 53) by lia.
        change (2 ^ (53 - 53)) with 1. rewrite Z.mul_1_r. f_equal. lia. }
      exists mr, k. rewrite Hrep.
      split; [apply Prim2SF_SF2Prim, rep_valid; rewrite ?(Zdigits2_unique mr 53); lia|].
      split; [lia|]. split; [lia|]. right. split; [lia|].
      replace k with (1 + (k - 1)) by lia. rewrite Z.pow_add_r by lia.
      pose proof (Z.pow_pos_nonneg 2 (k - 1)). nia.
    + destruct (Z.leb_spec (0 + k + 1) 971); [|lia].
      assert (Hrep : S754_finite false (Z.to_pos (2 ^ 52)) (0 + k + 1) = rep (2 ^ 52) (k + 1)).
      { unfold rep. change (Zdigits2 (2 ^ 52)) with 53.
        change (2 ^ (53 - 53)) with 1. rewrite Z.mul_1_r. f_equal. lia. }
      exists (2 ^ 52), (k + 1). rewrite Hrep.
      split; [apply Prim2SF_SF2Prim, rep_valid; change (Zdigits2 (2 ^ 52)) with 53; lia|].
      split; [lia|]. split; [lia|]. right. split; [lia|].
      rewrite Z.pow_add_r by lia. change (2 ^ 1) with 2. nia.
Qed.

Lemma Zdigits2_mul_ge (a b : Z) :
  0 < a -> 0 < b -> Zdigits2 a + Zdigits2 b - 1 <= Zdigits2 (a * b).
Proof.
  intros Ha Hb.
  destruct (Zdigits2_bounds a Ha) as [[Hla _] Hda].
  destruct (Zdigits2_bounds b Hb) as [[Hlb _] Hdb].
  assert (H : 2 ^ (Zdigits2 a - 1 + (Zdigits2 b - 1)) <= a * b).
  { rewrite Z.pow_add_r by lia.
    pose proof (Z.pow_pos_nonneg 2 (Zdigits2 a - 1)).
    pose proof (Z.pow_pos_nonneg 2 (Zdigits2 b - 1)). nia. }
  apply Zdigits2_gt in H; lia.
Qed.

(** The product of two floats is exact when it has at most 53 significant
    bits. *)
Lemma SFmul_rep (N1 E1 N2 E2 : Z) :
  0 < N1 -> 0 < N2 -> N1 * N2 < 2 ^ 53 ->
  -1074 <= E1 + E2 + Zdigits2 (N1 * N2) - 53 <= 971 ->
  SFmul prec emax (rep N1 E1) (rep N2 E2) = rep (N1 * N2) (E1 + E2).
Proof.
  intros H1 H2 HN HE.
  assert (HN1 : 0 < N1 < 2 ^ 53) by nia.
  assert (HN2 : 0 < N2 < 2 ^ 53) by nia.
  destruct (mantissa53 N1 HN1) as [HM1 Hd1].
  destruct (mantissa53 N2 HN2) as [HM2 Hd2].
  destruct (mantissa53 (N1 * N2)) as [HM Hd]; [nia|].
  pose proof (Zdigits2_mul_ge N1 N2 H1 H2) as Hge.
  unfold rep at 1 2. unfold SFmul. simpl xorb.
  rewrite Pos2Z.inj_mul, !Z2Pos.id by lia.
  set (k := 53 + Zdigits2 (N1 * N2) - Zdigits2 N1 - Zdigits2 N2).
  replace (N1 * 2 ^ (53 - Zdigits2 N1) * (N2 * 2 ^ (53 - Zdigits2 N2)))
    with (N1 * N2 * 2 ^ (53 - Zdigits2 (N1 * N2)) * 2 ^ k).
  - replace (E1 + Zdigits2 N1 - 53 + (E2 + Zdigits2 N2 - 53))
      with (E1 + E2 + Zdigits2 (N1 * N2) - 53 - k) by lia.
    apply binary_round_aux_exact; lia.
  - rewrite <- !Z.mul_assoc. f_equal.
    rewrite (Z.mul_comm (2 ^ (53 - Zdigits2 N1))), <- !Z.mul_assoc. f_equal.
    rewrite <- !Z.pow_add_r by lia. f_equal. lia.
Qed.

(** *** Division *)

Lemma div_eucl_div_mod (a b : Z) : Z.div_eucl a b = (a / b, a mod b).
Proof. unfold Z.div, Z.modulo. by destruct (Z.div_eucl a b). Qed.

Lemma new_location_inv (D r : Z) : 0 <= r < D -> loc_inv (new_location D r) r D.
Proof.
  intros Hr. unfold loc_inv, new_location, new_location_even, new_location_odd.
  split; [exact Hr|].
  destruct (Z.even D) eqn:Hev.
  - destruct (Z.eqb_spec r 0); [done|].
    destruct (Z.compare_spec (2 * r) D); lia.
  - rewrite <- Z.negb_odd in Hev. apply negb_false_iff, Z.odd_spec in Hev as [h Hh].
    destruct (Z.eqb_spec r 0); [done|].
    destruct (Z.compare_spec (2 * r + 1) D); lia.
Qed.

Lemma SFdiv_core_binary_53 (Mx ex My ey : Z) :
  2 ^ 52 <= Mx < 2 ^ 53 -> 2 ^ 52 <= My < 2 ^ 53 -> -1074 <= ex - ey - 53 ->
  SFdiv_core_binary prec emax Mx ex My ey
  = (Mx * 2 ^ 53 / My, ex - ey - 53, new_location My (Mx * 2 ^ 53 mod My)).
Proof.
  intros HMx HMy He. unfold SFdiv_core_binary.
  rewrite (Zdigits2_unique Mx 53), (Zdigits2_unique My 53) by lia.
  rewrite fexp_eq.
  replace (Z.min (Z.max (53 + ex - (53 + ey) - 53) (-1074)) (ex - ey))
    with (ex - ey - 53) by lia.
  replace (ex - ey - (ex - ey - 53)) with 53 by lia.
  rewrite Z.shiftl_mul_pow2, div_eucl_div_mod by lia. reflexivity.
Qed.

Lemma div_succ_same (q P : Z) :
  0 < P -> 0 <= q -> (q + 1) mod P <> 0 -> (q + 1) / P = q / P.
Proof. intros HP Hq Hm. Z.div_mod_to_equations. nia. Qed.

(** A quotient with a numerator below 2^53 is too far from the next
    integer for the rounding of the division to reach it. *)
Lemma no_carry (N T A D' q' R' P c : Z) :
  0 < D' -> 0 < P -> 0 < T ->
  A = q' * D' + R' -> 0 <= R' < D' -> D' <= 2 * R' ->
  A * T = N * (D' * P) -> q' + 1 = c * P -> 2 ^ 52 <= q' -> N < 2 ^ 53 ->
  False.
Proof.
  intros HD HP HT HA HR Hhalf Hid Hc Hq HN.
  assert (Hc1 : 1 <= c) by nia.
  assert (H2 : N < c * T).
  { apply (Z.mul_lt_mono_pos_r (D' * P)); [nia|].
    rewrite <- Hid. replace (c * T * (D' * P)) with ((c * P) * D' * T) by ring.
    rewrite <- Hc. apply Z.mul_lt_mono_pos_r; [done|]. nia. }
  assert (H3 : (2 * (c * P) - 1) * T <= 2 * N * P).
  { apply (Z.mul_le_mono_pos_r _ _ D'); [done|].
    replace (2 * N * P * D') with (2 * (N * (D' * P))) by ring.
    rewrite <- Hid, <- Hc.
    replace ((2 * (q' + 1) - 1) * T * D') with ((2 * q' * D' + D') * T) by ring.
    replace (2 * (A * T)) with ((2 * A) * T) by ring.
    apply Z.mul_le_mono_nonneg_r; [lia|]. nia. }
  assert (H4 : 2 * P <= T) by nia.
  assert (H5 : 2 ^ 52 * T <= N * P).
  { apply (Z.mul_le_mono_pos_r _ _ D'); [done|].
    replace (N * P * D') with (N * (D' * P)) by ring. rewrite <- Hid.
    replace (2 ^ 52 * T * D') with ((2 ^ 52 * D') * T) by ring.
    apply Z.mul_le_mono_nonneg_r; [lia|]. nia. }
  assert (H6 : 2 ^ 53 * P <= N * P).
  { change (2 ^ 53) with (2 ^ 52 * 2). nia. }
  apply Z.mul_le_mono_pos_r in H6; lia.
Qed.

Lemma rest_bound (u P M r : Z) :
  0 <= u < P -> 0 <= r < M -> 0 <= u * M + r < P * M.
Proof. intros Hu Hr. nia. Qed.

(** The division of a float of value [N / 2 ^ J1], with [N] below 2^53, by
    a float of integer value [t * 2 ^ E]: cut to its integer part, the
    rounded quotient is the exact floor. *)
Lemma SFdiv_truncate (N J1 t E : Z) (x : float) :
  0 < N < 2 ^ 53 -> 0 <= J1 <= 800 -> 0 <= E <= 100 -> 0 < t < 2 ^ 53 ->
  Prim2SF x = SFdiv prec emax (rep N (- J1)) (rep t E) ->
  Float64.truncate x = Some (N / (2 ^ (J1 + E) * t)) /\
  0 <= N / (2 ^ (J1 + E) * t) < 2 ^ 53.
Proof.
  intros HN HJ1 HE Ht Hx.
  set (J := J1 + E) in *.
  assert (HJ : 0 <= J <= 900) by (subst J; lia).
  destruct (mantissa53 N HN) as [HMx HdN].
  destruct (mantissa53 t Ht) as [HMy Hdt].
  assert (HpJ : 0 < 2 ^ J) by (apply Z.pow_pos_nonneg; lia).
  assert (Hfloor : 0 <= N / (2 ^ J * t) < 2 ^ 53).
  { split; [apply Z.div_pos; nia|].
    apply Z.div_lt_upper_bound; nia. }
  split; [|exact Hfloor].
  unfold rep, SFdiv in Hx. simpl xorb in Hx.
  set (Mx := N * 2 ^ (53 - Zdigits2 N)) in *.
  set (My := t * 2 ^ (53 - Zdigits2 t)) in *.
  rewrite !Z2Pos.id in Hx by lia.
  rewrite SFdiv_core_binary_53 in Hx by lia.
  set (A := Mx * 2 ^ 53) in *.
  set (q := A / My) in *. set (r := A mod My) in *.
  assert (HA : A = q * My + r) by (subst q r; rewrite Z.mul_comm; apply Z.div_mod; lia).
  assert (Hr : 0 <= r < My) by (apply Z.mod_pos_bound; lia).
  assert (Hq : 2 ^ 52 <= q < 2 ^ 54).
  { assert (H105 : 2 ^ 52 * 2 ^ 53 <= A) by (subst A; nia).
    assert (H106 : A < 2 ^ 53 * 2 ^ 53) by (subst A; nia).
    split.
    - apply Z.div_le_lower_bound; [lia|]. nia.
    - apply Z.div_lt_upper_bound; [lia|]. change (2 ^ 54) with (2 * 2 ^ 53). nia. }
  set (e' := - J1 + Zdigits2 N - 53 - (E + Zdigits2 t - 53) - 53) in *.
  destruct (binary_round_aux_spec false q e' (new_location My r) r My)
    as (mr & Hmr & _ & Hmr53 & Hbra); [lia | by apply new_location_inv |].
  rewrite Hbra in Hx. clear Hbra.
  assert (Hdq : 53 <= Zdigits2 q <= 54).
  { split; [pose proof (Zdigits2_gt q 52); lia | apply Zdigits2_le; lia]. }
  rewrite fexp_eq in Hmr, Hx.
  set (k := Zdigits2 q - 53) in *.
  replace (Z.max 0 (Z.max (Zdigits2 q + e' - 53) (-1074) - e')) with k in *
    by (subst k e'; lia).
  assert (Hpk : 0 < 2 ^ k) by (apply Z.pow_pos_nonneg; lia).
  set (q' := q / 2 ^ k) in *.
  set (D' := 2 ^ k * My) in *.
  set (R' := q mod 2 ^ k * My + r) in *.
  assert (Hqk : q = 2 ^ k * q' + q mod 2 ^ k) by (apply Z.div_mod; lia).
  assert (Hqm : 0 <= q mod 2 ^ k < 2 ^ k) by (apply Z.mod_pos_bound; lia).
  assert (HA' : A = q' * D' + R') by (subst D' R'; rewrite HA, Hqk at 1; ring).
  assert (HR' : 0 <= R' < D') by (subst D' R'; by apply rest_bound).
  assert (Hq' : 2 ^ 52 <= q').
  { subst q'. apply Z.div_le_lower_bound; [lia|].
    destruct (Zdigits2_bounds q) as [[Hlo _] _]; [lia|].
    rewrite <- Z.pow_add_r by lia.
    replace (k + 52) with (Zdigits2 q - 1) by (subst k; lia). exact Hlo. }
  set (a := J - Zdigits2 N + Zdigits2 t + 53 - k).
  assert (Ha : 0 <= a) by (subst a k; lia).
  assert (He1 : e' + k = - a) by (subst a e' J; lia).
  assert (Hpa : 0 < 2 ^ a) by (apply Z.pow_pos_nonneg; lia).
  (* the truncated result is the rounded mantissa shifted by [a] *)
  assert (Htr : Float64.truncate x = Some (mr / 2 ^ a)).
  { unfold Float64.truncate. rewrite Hx. rewrite He1.
    destruct (Z.eqb_spec mr 0) as [|_]; [lia|].
    destruct (Z.ltb_spec mr (2 ^ 53)) as [Hlt|Hge].
    - destruct (Z.leb_spec (- a) 971); [|lia].
      rewrite Z2Pos.id by lia.
      destruct (Z.leb_spec 0 (- a)).
      + replace (- a) with 0 by lia. replace a with 0 by lia.
        change (2 ^ 0) with 1. by rewrite Z.mul_1_r, Z.div_1_r.
      + by rewrite Z.opp_involutive.
    - destruct (Z.leb_spec (- a + 1) 971); [|lia].
      replace mr with (2 ^ 53) by lia.
      rewrite Z2Pos.id by lia.
      destruct (Z.leb_spec 0 (- a + 1)).
      + destruct (decide (a = 0)) as [->|Hne]; [reflexivity|].
        replace a with 1 by lia. reflexivity.
      + replace a with (1 + (- (- a + 1))) at 2 by lia.
        rewrite Z.pow_add_r, <- Z.div_div by lia. reflexivity. }
  rewrite Htr. f_equal.
  (* the exact floor is the mantissa before rounding shifted by [a] *)
  assert (Hid : A * (2 ^ J * t) = N * (D' * 2 ^ a)).
  { subst A D' Mx My.
    replace (N * 2 ^ (53 - Zdigits2 N) * 2 ^ 53 * (2 ^ J * t))
      with (N * t * (2 ^ (53 - Zdigits2 N) * 2 ^ 53 * 2 ^ J)) by ring.
    replace (N * (2 ^ k * (t * 2 ^ (53 - Zdigits2 t)) * 2 ^ a))
      with (N * t * (2 ^ k * 2 ^ (53 - Zdigits2 t) * 2 ^ a)) by ring.
    f_equal. rewrite <- !Z.pow_add_r by lia. f_equal. subst a. lia. }
  assert (HT : 0 < 2 ^ J * t) by (apply Z.mul_pos_pos; lia).
  assert (HDP : 0 < D' * 2 ^ a) by (apply Z.mul_pos_pos; lia).
  assert (Hexact : N / (2 ^ J * t) = q' / 2 ^ a).
  { rewrite <- (Z.div_mul_cancel_r N (2 ^ J * t) (D' * 2 ^ a)) by lia.
    rewrite <- Hid.
    rewrite (Z.mul_comm A), Z.div_mul_cancel_l by lia.
    rewrite <- Z.div_div by lia. f_equal.
    symmetry. apply (Z.div_unique_pos A D' q' R'); lia. }
  rewrite Hexact.
  destruct Hmr as [->|[-> Hhalf]]; [reflexivity|].
  apply div_succ_same; [lia | lia |].
  intros Hmod.
  apply Z.mod_divide in Hmod as [c Hc]; [|lia].
  apply (no_carry N (2 ^ J * t) A D' q' R' (2 ^ a) c); try done; lia.
Qed.

(** *** The share [1 - r] *)

Lemma shl_align_fst (mx : positive) (ex ez : Z) :
  ez <= ex -> Z.pos (fst (shl_align mx ex ez)) = Z.pos mx * 2 ^ (ex - ez).
Proof.
  intros Hle. unfold shl_align.
  destruct (ez - ex) as [|d|d] eqn:Hd; simpl; try lia.
  - replace (ex - ez) with 0 by lia. change (2 ^ 0) with 1. lia.
  - change (Pos.iter xO mx d) with (shift_pos d mx).
    rewrite shift_pos_correct. change (Z.pow_pos 2 d) with (2 ^ Z.pos d).
    replace (ex - ez) with (Z.pos d) by lia. ring.
Qed.

Lemma cond_Zopp_mul (s : bool) (a b : Z) : cond_Zopp s a * b = cond_Zopp s (a * b).
Proof. destruct s; simpl; ring. Qed.

(** The value of a finite float over a denominator [2 ^ (- ez)], for an
    exponent [ez] below the float's own and below zero. *)
Lemma exact_finite_value (s : bool) (m : positive) (e ez : Z) :
  ez <= e -> ez <= 0 ->
  ((if s
    then Qopp (if 0 <=? e then inject_Z (Z.pos m * 2 ^ e)
               else Qmake (Z.pos m) (Z.to_pos (2 ^ (- e))))
    else (if 0 <=? e then inject_Z (Z.pos m * 2 ^ e)
          else Qmake (Z.pos m) (Z.to_pos (2 ^ (- e)))))
   == Qmake (cond_Zopp s (Z.pos m) * 2 ^ (e - ez)) (Z.to_pos (2 ^ (- ez))))%Q.
Proof.
  intros Hle Hez.
  assert (Hp : 0 < 2 ^ (- ez)) by (apply Z.pow_pos_nonneg; lia).
  assert (Hsplit : 2 ^ (e - ez) = 2 ^ e * 2 ^ (- ez) \/ e < 0).
  { destruct (Z.leb_spec 0 e); [left | right; lia].
    replace (e - ez) with (e + - ez) by lia. apply Z.pow_add_r; lia. }
  unfold Qeq. destruct (Z.leb_spec 0 e) as [He|He].
  - destruct Hsplit as [Hs|]; [|lia].
    destruct s; simpl; rewrite Z2Pos.id by lia; rewrite Hs; ring.
  - assert (Hpe : 0 < 2 ^ (- e)) by (apply Z.pow_pos_nonneg; lia).
    assert (Hs : 2 ^ (- ez) = 2 ^ (e - ez) * 2 ^ (- e)).
    { replace (- ez) with (e - ez + - e) by lia. apply Z.pow_add_r; lia. }
    destruct s; simpl; rewrite !Z2Pos.id by lia; rewrite Hs; ring.
Qed.

Lemma Qdiv_pow2 (K J : Z) :
  0 <= J -> (inject_Z K / inject_Z (2 ^ J) == Qmake K (Z.to_pos (2 ^ J)))%Q.
Proof.
  intros HJ. assert (Hp : 0 < 2 ^ J) by (apply Z.pow_pos_nonneg; lia).
  destruct (2 ^ J) as [|p|p] eqn:Hpow; try lia.
  unfold Qeq, Qdiv, Qinv, Qmult, inject_Z. simpl. lia.
Qed.

Lemma Prim2SF_one : Prim2SF 1%float = S754_finite false 4503599627370496 (-52).
Proof. reflexivity. Qed.

Lemma valid_binary_finite (s : bool) (m : positive) (e : Z) :
  valid_binary (S754_finite s m e) = true ->
  -1074 <= e <= 971 /\ Z.pos m < 2 ^ 53.
Proof.
  unfold SpecFloat.valid_binary, bounded, canonical_mantissa.
  intros [Hc He]%andb_true_iff.
  apply Z.eqb_eq in Hc. apply Z.leb_le in He.
  change (emax - prec) with 971 in He. rewrite fexp_eq in Hc.
  split; [lia|].
  change (Z.pos (digits2_pos m)) with (Zdigits2 (Z.pos m)) in Hc.
  destruct (Zdigits2_bounds (Z.pos m)) as [[_ Hhi] _]; [lia|].
  eapply Z.lt_le_trans; [exact Hhi|]. apply Z.pow_le_mono_r; lia.
Qed.

(** The complement [1 - r] of a reserve fraction is computed without
    rounding when its value [K / 2 ^ J] has at most 53 significant bits. *)
Lemma complement_rep (r : float) (q : Q) (K J : Z) :
  Float64.exact r = Some q -> 0 <= K < 2 ^ 53 -> 0 <= J ->
  (1 - q == inject_Z K / inject_Z (2 ^ J))%Q ->
  Prim2SF (1 - r)%float = (if K =? 0 then S754_zero false else rep K (- J)) /\
  (0 < K -> J - Zdigits2 K <= 199).
Proof.
  intros Hq HK HJ Heq.
  assert (HpJ : 0 < 2 ^ J) by (apply Z.pow_pos_nonneg; lia).
  rewrite Qdiv_pow2 in Heq by done.
  rewrite sub_spec, Prim2SF_one. unfold SF64sub.
  pose proof (Prim2SF_valid r) as Hv.
  unfold Float64.exact in Hq.
  destruct (Prim2SF r) as [s|s| |s m e]; try discriminate.
  - (* r is zero *)
    injection Hq as <-.
    unfold Qeq in Heq. simpl in Heq. rewrite Z2Pos.id in Heq by lia.
    assert (HKJ : K = 1 * 2 ^ J) by lia.
    destruct (Z.eqb_spec K 0) as [HK0|_]; [lia|].
    simpl SFsub. rewrite HKJ.
    rewrite Zdigits2_mul_pow2 by lia.
    replace (- J) with (0 - J) by lia.
    rewrite rep_shift by lia. split; [reflexivity|]. change (Zdigits2 1) with 1. lia.
  - (* r is finite *)
    injection Hq as <-.
    apply valid_binary_finite in Hv as [He Hm].
    set (ez := Z.min (-52) e).
    rewrite (exact_finite_value s m e ez) in Heq by lia.
    unfold Qeq in Heq. simpl in Heq.
    set (w := - ez) in *.
    assert (Hw : 52 <= w <= 1074) by (subst w ez; lia).
    assert (Hpw : 0 < 2 ^ w) by (apply Z.pow_pos_nonneg; lia).
    rewrite Pos.mul_1_l, !Z2Pos.id in Heq by lia.
    set (Y := cond_Zopp s (Z.pos m) * 2 ^ (e - ez)) in *.
    set (D := 2 ^ w - Y).
    assert (HD : D * 2 ^ J = K * 2 ^ w) by (subst D; lia).
    assert (Hsub : SFsub prec emax (S754_finite false 4503599627370496 (-52))
                     (S754_finite s m e)
                   = binary_normalize prec emax D ez false).
    { unfold SFsub. change (Z.min (-52) e) with ez.
      rewrite !shl_align_fst by (subst ez; lia).
      f_equal. subst D Y. unfold cond_Zopp at 1. rewrite cond_Zopp_mul. f_equal.
      change (Z.pos 4503599627370496) with (2 ^ 52).
      rewrite <- Z.pow_add_r by lia. f_equal. subst w. lia. }
    rewrite Hsub. clear Hsub.
    destruct (Z.eqb_spec K 0) as [HK0|HK0].
    { (* r is one *)
      assert (HD0 : D = 0) by nia.
      rewrite HD0. split; [reflexivity | lia]. }
    assert (HK' : 0 < K < 2 ^ 53) by lia.
    assert (HD0 : 0 < D) by nia.
    assert (Hlow : w - 199 <= Zdigits2 D).
    { destruct (Zdigits2_bounds D HD0) as [_ Hd].
      destruct s.
      - assert (HY : Y <= 0).
        { subst Y. simpl. pose proof (Z.pow_pos_nonneg 2 (e - ez)). nia. }
        pose proof (Zdigits2_gt D w). lia.
      - destruct (Z.le_gt_cases (-200) e) as [Hbig|Hsmall]; [subst w ez; lia|].
        assert (HY : Y = Z.pos m).
        { subst Y ez. simpl. replace (e - Z.min (-52) e) with 0 by lia.
          change (2 ^ 0) with 1. lia. }
        assert (H53 : 2 ^ 53 <= 2 ^ (w - 1)) by (apply Z.pow_le_mono_r; lia).
        assert (H2w : 2 ^ w = 2 * 2 ^ (w - 1)).
        { replace w with (1 + (w - 1)) at 1 by lia.
          rewrite Z.pow_add_r by lia. reflexivity. }
        pose proof (Zdigits2_gt D (w - 1)). lia. }
    destruct (Z.le_gt_cases J w) as [HJw|HJw].
    + (* the difference has trailing zeros *)
      assert (HDK : D = K * 2 ^ (w - J)).
      { apply (Z.mul_reg_r _ _ (2 ^ J)); [lia|].
        rewrite HD, <- Z.mul_assoc, <- Z.pow_add_r by lia.
        f_equal. f_equal. lia. }
      assert (Hd : Zdigits2 D = Zdigits2 K + (w - J))
        by (rewrite HDK; apply Zdigits2_mul_pow2; lia).
      destruct (mantissa53 K HK') as [_ HdK].
      rewrite HDK, binary_normalize_rep by (subst w; lia).
      split; [f_equal; subst w; lia | lia].
    + assert (HKD : K = D * 2 ^ (J - w)).
      { apply (Z.mul_reg_r _ _ (2 ^ w)); [lia|].
        rewrite <- HD, <- Z.mul_assoc, <- Z.pow_add_r by lia.
        f_equal. f_equal. lia. }
      assert (HpJw : 0 < 2 ^ (J - w)) by (apply Z.pow_pos_nonneg; lia).
      assert (HD53 : 0 < D < 2 ^ 53) by nia.
      assert (Hd : Zdigits2 K = Zdigits2 D + (J - w))
        by (rewrite HKD; apply Zdigits2_mul_pow2; lia).
      destruct (mantissa53 D HD53) as [_ HdD].
      replace D with (D * 2 ^ 0) at 1 by (change (2 ^ 0) with 1; lia).
      rewrite binary_normalize_rep by (subst w; lia).
      split; [|lia].
      rewrite HKD. replace (- J) with (ez - (J - w)) by (subst w; lia).
      rewrite rep_shift by lia. f_equal. lia.
Qed.

(** *** The formula as a whole *)

Lemma Qfloor_funding (f t K J : Z) (q : Q) :
  0 < t -> 0 <= J ->
  (1 - q == inject_Z K / inject_Z (2 ^ J))%Q ->
  Qfloor (inject_Z f * (1 - q) / inject_Z t) = f * K / (2 ^ J * t).
Proof.
  intros Ht HJ Heq.
  assert (HpJ : 0 < 2 ^ J) by (apply Z.pow_pos_nonneg; lia).
  assert (H : (inject_Z f * (1 - q) / inject_Z t
               == Qmake (f * K) (Z.to_pos (2 ^ J * t)))%Q).
  { rewrite Heq, Qdiv_pow2 by done.
    destruct t as [|tp|tp]; try lia.
    unfold Qeq, Qdiv, Qinv, Qmult, inject_Z. simpl.
    rewrite Pos.mul_1_l, Pos2Z.inj_mul, !Z2Pos.id by lia. ring. }
  rewrite H. unfold Qfloor. rewrite Z2Pos.id by nia. reflexivity.
Qed.

Lemma to_int64_truncate (x : float) (z : Z) :
  Float64.truncate x = Some z -> 0 <= z < 2 ^ 53 -> Float64.to_int64 x = z.
Proof.
  intros Htr Hz. unfold Float64.to_int64. rewrite Htr.
  assert (Hin : (Int64.min_int <=? z) && (z <=? Int64.max_int) = true).
  { apply andb_true_iff. unfold Int64.min_int, Int64.max_int.
    split; apply Z.leb_le; lia. }
  by rewrite Hin.
Qed.

(** The float64 computation of the funding per partner gives the exact
    floor of [f * (1 - r) / t] when the share [1 - r] is [K / 2 ^ J] and the
    product [f * K] fits the 53 bits of a mantissa. *)
Lemma fundingFormula_exact (f t : Z) (r : float) (q : Q) (K J : Z) :
  0 < f < 2 ^ 63 -> 0 < t < 2 ^ 63 ->
  Float64.exact r = Some q ->
  0 <= K -> 0 <= J -> (1 - q == inject_Z K / inject_Z (2 ^ J))%Q ->
  f * K < 2 ^ 53 ->
  exactFundingFloor f t r = Some (fundingFormula f t r).
Proof.
  intros Hf Ht Hq HK HJ Heq HfK.
  assert (HK53 : 0 <= K < 2 ^ 53) by nia.
  assert (HpJ : 0 < 2 ^ J) by (apply Z.pow_pos_nonneg; lia).
  destruct (complement_rep r q K J Hq HK53 HJ Heq) as [Hc HJK].
  destruct (Prim2SF_of_int64 t Ht) as (t' & E & Hpt & Ht' & HE & Hcase).
  destruct (Prim2SF_of_int64 f Hf) as (f' & Ef & Hpf & Hf' & HEf & Hfcase).
  unfold exactFundingFloor, fundingFormula. rewrite Hq. f_equal.
  rewrite (Qfloor_funding f t K J q) by (done || lia).
  set (x := (Float64.of_int64 f * (1 - r))%float).
  symmetry.
  destruct (Z.eqb_spec K 0) as [HK0|HK0].
  - (* the reserve is the whole of the funds *)
    assert (Hx : Prim2SF (x / Float64.of_int64 t)%float = S754_zero false).
    { subst x. rewrite div_spec, mul_spec, Hc, Hpf, Hpt. reflexivity. }
    rewrite HK0, Z.mul_0_r, Z.div_0_l by lia.
    apply to_int64_truncate; [|lia].
    unfold Float64.truncate. by rewrite Hx.
  - assert (HK' : 0 < K < 2 ^ 53) by lia.
    assert (Hf53 : 0 < f < 2 ^ 53) by nia.
    assert (HN : 0 < f * K < 2 ^ 53) by nia.
    destruct Hfcase as [(_ & -> & ->)|[Hbig _]]; [|lia].
    destruct (mantissa53 K HK') as [_ HdK].
    destruct (mantissa53 (f * K) HN) as [_ HdN].
    assert (Hge : Zdigits2 f + Zdigits2 K - 1 <= Zdigits2 (f * K))
      by (apply Zdigits2_mul_ge; lia).
    destruct (Zdigits2_bounds f) as [_ Hdf]; [lia|].
    specialize (HJK (proj1 HK')).
    assert (Hx : Prim2SF x = rep (f * K) (- J)).
    { subst x. rewrite mul_spec, Hc, Hpf.
      unfold SF64mul. rewrite SFmul_rep; [reflexivity | lia..]. }
    destruct (SFdiv_truncate (f * K) J t' E (x / Float64.of_int64 t)%float)
      as [Htr Hrange]; [done | lia | lia | done | |].
    { by rewrite div_spec, Hx, Hpt. }
    rewrite (to_int64_truncate _ _ Htr Hrange).
    destruct Hcase as [(_ & -> & ->)|[Hbig Hbig']].
    + by rewrite Z.add_0_r.
    + (* a target of 2^53 or more: both sides are zero *)
      assert (HpJE : 2 ^ (J + E) = 2 ^ J * 2 ^ E) by (apply Z.pow_add_r; lia).
      rewrite !Z.div_small; [reflexivity | nia |].
      split; [lia|]. rewrite HpJE. nia.
Qed.

(** C5, as worded, fails on the code: the amount is computed in float64, and
    with funds of 2^53 + 1 (target 1, no reserve) the conversion of the funds
    to float64 already rounds, so that the amount is 2^53 and not the exact
    floor 2^53 + 1. *)
Lemma initialFundingPerPartner_is_not_the_exact_floor :
  let cm := manager (2 ^ 53 + 1) 1 0%float tenPartners in
  0 < funds cm /\ 0 < initChannelTarget cm /\
  initialFundingPerPartner cm = 2 ^ 53 /\
  exactFundingFloor (funds cm) (initChannelTarget cm) (joinableFundsTarget cm)
    = Some (2 ^ 53 + 1) /\
  exactFundingFloor (funds cm) (initChannelTarget cm) (joinableFundsTarget cm)
    <> Some (initialFundingPerPartner cm).
Proof.
  vm_compute. split; [reflexivity|]. split; [reflexivity|].
  split; [reflexivity|]. split; [reflexivity | discriminate].
Qed.

(** Further inputs on which the amount is not the exact floor: a reserve
    of 0.4 (as a float64), whose share takes all 53 bits of a mantissa, so
    that the product with funds of 5 rounds up to 3; funds of 2^60, which
    convert exactly, divided by 3; and a reserve above 1, where the
    conversion to int64 cuts toward zero. *)
Lemma initialFundingPerPartner_rounds_the_product :
  initialFundingPerPartner (manager 5 1 0x1.999999999999ap-2%float tenPartners) = 3 /\
  exactFundingFloor 5 1 0x1.999999999999ap-2%float = Some 2.
Proof. vm_compute. split; reflexivity. Qed.

Lemma initialFundingPerPartner_rounds_the_quotient :
  initialFundingPerPartner (manager (2 ^ 60) 3 0%float tenPartners)
    = 384307168202282304 /\
  exactFundingFloor (2 ^ 60) 3 0%float = Some 384307168202282325.
Proof. vm_compute. split; reflexivity. Qed.

Lemma initialFundingPerPartner_cuts_toward_zero :
  initialFundingPerPartner (manager 10 4 1.5%float tenPartners) = -1 /\
  exactFundingFloor 10 4 1.5%float = Some (-2).
Proof. vm_compute. split; reflexivity. Qed.

(** C5, as it holds: for funds and a target that are positive int64 values
    and a reserve fraction [r] of at most 1 whose share [1 - r] is
    [K / 2 ^ J] with [f * K] below 2^53 (the product fits the 53 bits of a
    float64 mantissa), the amount is exactly the floor of
    [f * (1 - r) / t]; so Connect(1000, 4, 0.25) funds each channel with
    187. *)
Theorem initialFundingPerPartner_exact_floor
    {W : Type} (cm : ConnectionManager W) (q : Q) (K J : Z) :
  0 < funds cm <= Int64.max_int ->
  0 < initChannelTarget cm <= Int64.max_int ->
  Float64.exact (joinableFundsTarget cm) = Some q ->
  0 <= K -> 0 <= J -> (1 - q == inject_Z K / inject_Z (2 ^ J))%Q ->
  funds cm * K < 2 ^ 53 ->
  exactFundingFloor (funds cm) (initChannelTarget cm) (joinableFundsTarget cm)
  = Some (initialFundingPerPartner cm).
Proof.
  intros Hf Ht Hq HK HJ Heq HfK.
  rewrite initialFundingPerPartner_formula by lia.
  unfold Int64.max_int in Hf, Ht.
  apply (fundingFormula_exact _ _ _ q K J); (done || lia).
Qed.

Lemma initialFundingPerPartner_exact_floor_witness :
  let cm := manager 1000 4 0.25%float tenPartners in
  let q := Qmake 4503599627370496 18014398509481984 in
  0 < funds cm <= Int64.max_int /\
  0 < initChannelTarget cm <= Int64.max_int /\
  Float64.exact (joinableFundsTarget cm) = Some q /\
  (1 - q == inject_Z 3 / inject_Z (2 ^ 2))%Q /\
  funds cm * 3 < 2 ^ 53 /\
  exactFundingFloor 1000 4 0.25%float = Some 187 /\
  initialFundingPerPartner cm = 187.
Proof.
  set (cm := manager 1000 4 0.25%float tenPartners).
  set (q := Qmake 4503599627370496 18014398509481984).
  assert (Hf : 0 < funds cm <= Int64.max_int) by (vm_compute; split; [reflexivity | discriminate]).
  assert (Ht : 0 < initChannelTarget cm <= Int64.max_int)
    by (vm_compute; split; [reflexivity | discriminate]).
  assert (Hq : Float64.exact (joinableFundsTarget cm) = Some q) by (vm_compute; reflexivity).
  assert (Heq : (1 - q == inject_Z 3 / inject_Z (2 ^ 2))%Q) by (vm_compute; reflexivity).
  assert (HfK : funds cm * 3 < 2 ^ 53) by (vm_compute; reflexivity).
  assert (H0 : 0 <= 3) by discriminate.
  assert (H2 : 0 <= 2) by discriminate.
  pose proof (initialFundingPerPartner_exact_floor cm q 3 2 Hf Ht Hq H0 H2 Heq HfK) as H.
  split; [exact Hf|]. split; [exact Ht|]. split; [exact Hq|].
  split; [exact Heq|]. split; [exact HfK|].
  assert (He : exactFundingFloor 1000 4 0.25%float = Some 187)
    by (vm_compute; reflexivity).
  split; [exact He|].
  change (exactFundingFloor 1000 4 0.25%float
          = Some (initialFundingPerPartner cm)) in H.
  rewrite He in H.
  apply (f_equal (fun o : option Z => match o with Some z => z | None => 0 end)) in H.
  symmetry. exact H.
Defined.

(** * Properties of the alarm task *)

(** ** RemoveCallback *)

(** The comparison [addr1 == addr2] of RemoveCallback is between the
    locations of two different variables, and fails at every iteration. *)
Lemma RemoveCallback_loop_distinct (addr2 addr1 : Loc) (k : nat)
    (ranged current : list AlarmCallback) :
  addr1 <> addr2 ->
  RemoveCallback_loop addr2 addr1 k ranged current = Some current.
Proof.
  intros Hne. revert k. induction ranged as [|c rest IH]; intros k; simpl.
  - reflexivity.
  - destruct (Nat.eqb_spec addr1 addr2) as [Heq|_]; [contradiction|]. apply IH.
Qed.

Lemma RemoveCallback_removes_nothing (free : Loc) (cb : AlarmCallback)
    (t : AlarmTask) :
  RemoveCallback free cb t = Some t.
Proof.
  unfold RemoveCallback, declare.
  rewrite RemoveCallback_loop_distinct by lia. by destruct t.
Qed.

Lemma removeCallbacks_removes_nothing (free : Loc)
    (removes : list AlarmCallback) (t : AlarmTask) :
  removeCallbacks free removes t = Some t.
Proof.
  induction removes as [|cb rest IH]; simpl; [reflexivity|].
  by rewrite RemoveCallback_removes_nothing.
Qed.

Lemma invokeCallbacks_log (h : Z) (cbs removes : list AlarmCallback)
    (log : list (nat * Z)) :
  snd (invokeCallbacks h cbs removes log)
  = log ++ map (fun cb => (cb_id cb, h)) cbs.
Proof.
  revert removes log. induction cbs as [|cb rest IH]; intros removes log; simpl.
  - by rewrite app_nil_r.
  - destruct (cb_call cb h); rewrite IH, <- app_assoc; reflexivity.
Qed.

(** A received header: all the registered callbacks are called with it, and
    the callback list stays as it was. *)
Lemma onHeader_calls_all (h : Z) (q : list Z) (s : System) :
  onHeader h q s =
  {| task := task s; runner := Selecting h q; chainHeight := chainHeight s;
     invoked := invoked s ++ map (fun cb => (cb_id cb, h)) (callback (task s)) |}.
Proof.
  unfold onHeader.
  pose proof (invokeCallbacks_log h (callback (task s)) [] (invoked s)) as Hlog.
  destruct (invokeCallbacks h (callback (task s)) [] (invoked s)) as [removes log].
  simpl in Hlog. rewrite removeCallbacks_removes_nothing. by rewrite Hlog.
Qed.

(** C2 on the code: a callback that returns an error at block 5 is still in
    the callback list afterwards (RemoveCallback has deleted nothing) and is
    called again at block 6. *)
Theorem failed_callback_is_called_again :
  let events := [EvStart; EvHeaderByNumberOk; EvSubscribeOk; EvRecvHeader;
                 EvBlockMined; EvRecvHeader] in
  is_Some (cb_call alwaysFails 5) /\
  RemoveCallback 0%nat alwaysFails (RegisterCallback alwaysFails NewAlarmTask)
    = Some (RegisterCallback alwaysFails NewAlarmTask) /\
  exists s, execute events (initialSystem [alwaysFails] 5) = Some s /\
            callback (task s) = [alwaysFails] /\
            invoked s = [(cb_id alwaysFails, 5); (cb_id alwaysFails, 6)].
Proof.
  split; [by eexists|]. split; [reflexivity|].
  eexists. split; [reflexivity|]. split; reflexivity.
Qed.

(** ** Stop *)

(** C10: after a call of Stop that returned, the channel [shouldStop] is
    closed, and every further call of Stop panics (send on a closed
    channel), whether or not somebody is receiving. *)
Theorem Stop_twice_panics (t t' : AlarmTask) (receiver1 receiver2 : bool) :
  Stop receiver1 t = StopReturns t' ->
  shouldStop t = ChanOpen /\ shouldStop t' = ChanClosed /\
  callback t' = callback t /\
  Stop receiver2 t' = StopPanics.
Proof.
  unfold Stop. destruct (shouldStop t) eqn:Hopen; [|discriminate].
  destruct receiver1; [|discriminate].
  intros [= <-]. simpl. auto.
Qed.

Lemma Stop_twice_panics_witness :
  Stop true NewAlarmTask
    = StopReturns {| lastBlockNumber := -1; shouldStop := ChanClosed; callback := [] |} /\
  Stop true {| lastBlockNumber := -1; shouldStop := ChanClosed; callback := [] |}
    = StopPanics.
Proof.
  assert (H : Stop true NewAlarmTask
              = StopReturns {| lastBlockNumber := -1; shouldStop := ChanClosed;
                               callback := [] |}) by reflexivity.
  split; [exact H|].
  exact (proj2 (proj2 (proj2 (Stop_twice_panics _ _ true true H)))).
Defined.

Example second_Stop_panics_the_caller :
  option_map runner
    (execute [EvStart; EvHeaderByNumberOk; EvSubscribeOk; EvStop; EvStop]
             (initialSystem [neverFails] 5))
  = Some Panicked.
Proof. reflexivity. Qed.

(** A Stop before Start, or while the runner is outside the select, stays
    blocked in the send. *)
Example Stop_before_Start_blocks :
  Stop false NewAlarmTask = StopBlocked.
Proof. reflexivity. Qed.

(** ** The heights passed to the callbacks *)

(** C3 on the code: Stop makes waitNewBlock return nil, and [run] calls it
    again at once; the header fetched anew is the one of the same height
    when no block has been mined since, and the callback is called with
    height 5 a second time. *)
Theorem callback_called_twice_for_a_height_after_Stop :
  let events := [EvStart; EvHeaderByNumberOk; EvSubscribeOk; EvRecvHeader;
                 EvStop;
                 EvHeaderByNumberOk; EvSubscribeOk; EvRecvHeader] in
  exists s, execute events (initialSystem [neverFails] 5) = Some s /\
            chainHeight s = 5 /\
            heightsOf (cb_id neverFails) (invoked s) = [5; 5] /\
            strictlyIncreasing (heightsOf (cb_id neverFails) (invoked s)) = false.
Proof.
  eexists. split; [reflexivity|]. split; [reflexivity|]. split; reflexivity.
Qed.

Lemma rounds_snoc (cbs : list AlarmCallback) (hs : list Z) (h : Z) :
  rounds cbs (hs ++ [h]) = rounds cbs hs ++ map (fun cb => (cb_id cb, h)) cbs.
Proof. unfold rounds. rewrite map_app, concat_app. simpl. by rewrite app_nil_r. Qed.

Lemma initialSystem_callbacks (cbs : list AlarmCallback) (t : AlarmTask) :
  let t' := foldl (fun t cb => RegisterCallback cb t) t cbs in
  callback t' = callback t ++ cbs /\ shouldStop t' = shouldStop t.
Proof.
  revert t. induction cbs as [|cb cbs IH]; intros t; simpl.
  - by rewrite app_nil_r.
  - destruct (IH (RegisterCallback cb t)) as [Hc Hs]. simpl in *.
    rewrite Hc, Hs, <- app_assoc. done.
Qed.

Lemma StopFree_initial (cbs : list AlarmCallback) (height : Z) :
  StopFree cbs (initialSystem cbs height) [].
Proof.
  destruct (initialSystem_callbacks cbs NewAlarmTask) as [Hc Hs].
  split; simpl; try done; constructor.
Qed.

(** Every step other than a Stop or the registration of a further callback
    keeps the invariant. *)
Lemma StopFree_step (cbs : list AlarmCallback) (e : Event) (s s' : System)
    (hs : list Z) :
  StopFree cbs s hs -> e <> EvStop -> (forall cb, e <> EvRegisterCallback cb) ->
  step e s = Some s' ->
  exists hs', StopFree cbs s' hs'.
Proof.
  intros [Hopen Hcbs Halive Hlog Hidle Hsorted Hbound] Hne Hnr Hstep.
  unfold step in Hstep.
  destruct e as [|cb| | | | | | | |]; try done; [|by destruct (Hnr cb)|..];
    destruct (runner s) as [| |cur q|cur q|] eqn:Hr;
    simpl in *; try done.
  - (* Start *)
    injection Hstep as <-. exists hs. split; simpl; auto; try done.
  - (* a block is mined before the subscription *)
    injection Hstep as <-. exists hs. split; simpl; auto; try done.
    eapply Forall_impl; [exact Hbound|]. simpl. lia.
  - injection Hstep as <-. exists hs. split; simpl; auto; try done.
    eapply Forall_impl; [exact Hbound|]. simpl. lia.
  - injection Hstep as <-. exists hs. split; simpl; auto; try done.
    eapply Forall_impl; [exact Hbound|]. simpl. lia.
  - (* a block is mined while subscribed: its header is queued *)
    injection Hstep as <-. exists hs. split; simpl; auto; try done.
    + rewrite app_assoc. apply StronglySorted_app_2; [|done|repeat constructor].
      intros x1 x2 Hx1 ->%list_elem_of_singleton.
      rewrite Forall_forall in Hbound. specialize (Hbound x1 Hx1). simpl in Hbound. lia.
    + rewrite app_assoc. apply Forall_app. split.
      * eapply Forall_impl; [exact Hbound|]. simpl. lia.
      * repeat constructor. lia.
  - (* HeaderByNumber fails *)
    injection Hstep as <-. exists hs. split; simpl; auto; try done.
    all: by rewrite Hr.
  - (* HeaderByNumber succeeds: the header waits in headerCh *)
    injection Hstep as <-. rewrite (Hidle eq_refl) in *.
    exists []. split; simpl; auto; try done; repeat constructor. lia.
  - (* SubscribeNewHead fails *)
    injection Hstep as <-. rewrite (Hidle eq_refl) in *.
    exists []. split; simpl; auto; try done; constructor.
  - (* SubscribeNewHead succeeds *)
    injection Hstep as <-. exists hs. split; simpl; auto; try done.
  - (* a header is received *)
    destruct q as [|h q]; [done|]. injection Hstep as <-.
    rewrite onHeader_calls_all. exists (hs ++ [h]).
    split; simpl; auto; try done.
    + by rewrite Hlog, Hcbs, rounds_snoc.
    + by rewrite <- app_assoc.
    + by rewrite <- app_assoc.
  - (* the select cannot take a stop signal: shouldStop is open *)
    by rewrite Hopen in Hstep.
Qed.

Lemma StopFree_execute (cbs : list AlarmCallback) (es : list Event)
    (s s' : System) (hs : list Z) :
  StopFree cbs s hs -> EvStop ∉ es -> (forall cb, EvRegisterCallback cb ∉ es) ->
  execute es s = Some s' ->
  exists hs', StopFree cbs s' hs'.
Proof.
  revert s hs.
  induction es as [|e es IH]; intros s hs Hinv Hfree Hreg Hexec; simpl in *.
  - injection Hexec as <-. eauto.
  - destruct (step e s) as [s1|] eqn:Hstep; [|done].
    apply not_elem_of_cons in Hfree as [Hne Hfree].
    destruct (StopFree_step cbs e s s1 hs Hinv) as [hs1 Hinv1]; [done| |done|].
    + intros cb ->. apply (Hreg cb), list_elem_of_here.
    + apply (IH s1 hs1); [done..| |done].
      intros cb Hin. apply (Hreg cb). by right.
Qed.

Lemma heightsOf_app (id : nat) (l1 l2 : list (nat * Z)) :
  heightsOf id (l1 ++ l2) = heightsOf id l1 ++ heightsOf id l2.
Proof. unfold heightsOf. by rewrite filter_app, map_app. Qed.

Lemma heightsOf_absent (id : nat) (h : Z) (cbs : list AlarmCallback) :
  id ∉ map cb_id cbs ->
  heightsOf id (map (fun cb => (cb_id cb, h)) cbs) = [].
Proof.
  induction cbs as [|cb cbs IH]; simpl; [done|].
  intros [Hne Hnin]%not_elem_of_cons. unfold heightsOf in *.
  rewrite filter_cons_False by (simpl; congruence). by apply IH.
Qed.

(** With callbacks of distinct identities, one round calls each of them
    once. *)
Lemma heightsOf_round (id : nat) (h : Z) (cbs : list AlarmCallback) :
  NoDup (map cb_id cbs) ->
  heightsOf id (map (fun cb => (cb_id cb, h)) cbs)
  = if decide (id ∈ map cb_id cbs) then [h] else [].
Proof.
  induction cbs as [|cb cbs IH]; simpl; intros Hnd.
  - reflexivity.
  - apply NoDup_cons in Hnd as [Hfresh Hnd].
    destruct (decide (cb_id cb = id)) as [<-|Hne].
    + rewrite decide_True by apply list_elem_of_here.
      unfold heightsOf. rewrite filter_cons_True by done. simpl.
      fold (heightsOf (cb_id cb) (map (fun cb0 => (cb_id cb0, h)) cbs)).
      by rewrite heightsOf_absent.
    + unfold heightsOf in *. rewrite filter_cons_False by done.
      rewrite IH by done.
      destruct (decide (id ∈ map cb_id cbs)) as [Hin|Hnin].
      * by rewrite decide_True by (by right).
      * rewrite decide_False; [done|].
        intros [Heq|Hin]%elem_of_cons; [congruence | done].
Qed.

Lemma heightsOf_rounds (id : nat) (cbs : list AlarmCallback) (hs : list Z) :
  NoDup (map cb_id cbs) ->
  heightsOf id (rounds cbs hs) = if decide (id ∈ map cb_id cbs) then hs else [].
Proof.
  intros Hnd. induction hs as [|h hs IH]; simpl.
  - by case_decide.
  - unfold rounds in *. simpl. rewrite heightsOf_app, IH, heightsOf_round by done.
    by case_decide.
Qed.

Lemma strictlyIncreasing_sorted (l : list Z) :
  StronglySorted Z.lt l -> strictlyIncreasing l = true.
Proof.
  induction l as [|x [|y l] IH]; simpl; intros Hs; try done.
  apply StronglySorted_cons in Hs as [Hx Hs].
  apply Forall_cons in Hx as [Hxy _].
  apply andb_true_iff. split; [by apply Z.ltb_lt | by apply IH].
Qed.

(** On a task started once, with its callbacks (of distinct identities)
    registered before Start and none registered later: as long as Stop is
    not called, whatever the interleaving of mined blocks, failed and
    successful HeaderByNumber and SubscribeNewHead calls and received
    headers, every callback is called with strictly increasing heights,
    hence at most once for a height. *)
Lemma heights_increase_without_Stop (cbs : list AlarmCallback) (height : Z)
    (es : list Event) (s : System) (id : nat) :
  NoDup (map cb_id cbs) ->
  EvStop ∉ es ->
  (forall cb, EvRegisterCallback cb ∉ es) ->
  execute es (initialSystem cbs height) = Some s ->
  strictlyIncreasing (heightsOf id (invoked s)) = true.
Proof.
  intros Hnd Hfree Hreg Hexec.
  destruct (StopFree_execute cbs es _ s [] (StopFree_initial cbs height)
              Hfree Hreg Hexec)
    as [hs [_ _ _ Hlog _ Hsorted _]].
  rewrite Hlog, heightsOf_rounds by done.
  case_decide; [|done].
  apply strictlyIncreasing_sorted. by apply StronglySorted_app_1_l in Hsorted.
Qed.

Example retries_do_not_repeat_a_height :
  option_map invoked
    (execute [EvStart; EvHeaderByNumberFails; EvHeaderByNumberOk; EvSubscribeFails;
              EvBlockMined; EvHeaderByNumberOk; EvSubscribeOk; EvRecvHeader;
              EvBlockMined; EvBlockMined; EvRecvHeader; EvRecvHeader]
             (initialSystem [neverFails] 5))
  = Some [(0%nat, 6); (0%nat, 7); (0%nat, 8)].
Proof. reflexivity. Qed.

(** * More properties of the connection manager *)

Section ConnectionManagerMore.
Context {W : Type} {api : RaidenApi W}.
Implicit Types cm : ConnectionManager W.

(** ** Deposits and remaining funds *)

Lemma Int64_wrap_add_l (a b : Z) : Int64.wrap (Int64.wrap a + b) = Int64.wrap (a + b).
Proof.
  unfold Int64.wrap. generalize (2 ^ 63) (2 ^ 64). intros h m.
  destruct (decide (m = 0)) as [->|Hm].
  - rewrite !Z.mod_0_r. f_equal. lia.
  - replace ((a + h) mod m - h + b + h) with ((a + h) mod m + b) by lia.
    rewrite Z.add_mod_idemp_l by done. f_equal. f_equal. lia.
Qed.

Lemma Int64_wrap_sub_r (a b : Z) : Int64.wrap (a - Int64.wrap b) = Int64.wrap (a - b).
Proof.
  unfold Int64.wrap. generalize (2 ^ 63) (2 ^ 64). intros h m.
  destruct (decide (m = 0)) as [->|Hm].
  - rewrite !Z.mod_0_r. f_equal. lia.
  - replace (a - ((b + h) mod m - h) + h) with (a + h + h - (b + h) mod m) by lia.
    rewrite Zminus_mod_idemp_r. f_equal. f_equal. lia.
Qed.

Lemma sum_loop_wraps (chs : list Channel) (a : Z) :
  foldl (fun sum c => Int64.add sum (ContractBalance c)) (Int64.wrap a) chs
  = Int64.wrap (a + foldr (fun c total => ContractBalance c + total) 0 chs).
Proof.
  revert a. induction chs as [|c chs IH]; intros a; simpl.
  - by rewrite Z.add_0_r.
  - unfold Int64.add at 2. rewrite Int64_wrap_add_l, IH. f_equal. lia.
Qed.

(** X1: sumDeposits is the exact sum of the deposits of the channels of the
    token network whose state is opened, reduced to an int64: a channel in
    any other state does not count, and an overflow in the middle of the
    loop does not change the result. *)
Theorem sumDeposits_is_total_as_int64 cm :
  sumDeposits cm =
  Int64.wrap
    (foldr (fun c total => ContractBalance c + total) 0
       (filter (fun c => State c = CHANNEL_STATE_OPENED)
          (GetChannelList (tokenAddress cm) (world cm)))).
Proof.
  unfold sumDeposits, openChannels.
  change 0 with (Int64.wrap 0) at 1. by rewrite sum_loop_wraps.
Qed.

(** X2: with funds configured, and as long as funds minus deposits fits an
    int64, fundsRemaining is exactly the funds minus the deposits of the open
    channels. *)
Theorem fundsRemaining_exact cm :
  0 < funds cm ->
  Int64.in_range (funds cm - depositsTotal cm) ->
  fundsRemaining cm = funds cm - depositsTotal cm.
Proof.
  intros Hf Hr. unfold fundsRemaining.
  destruct (Z.ltb_spec 0 (funds cm)); [|lia].
  unfold Int64.sub. unfold sumDeposits, depositsTotal in *.
  change 0 with (Int64.wrap 0) at 1. rewrite sum_loop_wraps. simpl.
  rewrite Int64_wrap_sub_r. by apply Int64_wrap_small.
Qed.

(** ** WantsMoreChannels and RetryConnect *)

Lemma fundsRemaining_without_funds cm : funds cm <= 0 -> fundsRemaining cm = 0.
Proof.
  intros Hf. unfold fundsRemaining. destruct (Z.ltb_spec 0 (funds cm)); [lia | done].
Qed.

(** X3: RetryConnect runs the channel-opening step exactly when
    WantsMoreChannels holds, and does nothing otherwise. *)
Theorem RetryConnect_follows_WantsMoreChannels cm :
  RetryConnect cm = if WantsMoreChannels cm then snd (addNewPartners cm) else cm.
Proof.
  unfold RetryConnect, WantsMoreChannels, LeaveState.
  destruct (Z.leb_spec (funds cm) 0) as [Hf|Hf].
  - rewrite (fundsRemaining_without_funds cm Hf).
    destruct (blocked cm); reflexivity.
  - destruct (blocked cm); simpl; [reflexivity|].
    destruct (Z.leb_spec (fundsRemaining cm) 0) as [Hr|Hr];
      destruct (Z.ltb_spec 0 (fundsRemaining cm)) as [Hr'|Hr']; try lia; simpl.
    + destruct (initChannelTarget cm <? 1); reflexivity.
    + destruct (Z.ltb_spec (initChannelTarget cm) 1) as [Ht|Ht];
        destruct (Z.leb_spec (initChannelTarget cm) (Z.of_nat (length (openChannels cm))));
        destruct (Z.ltb_spec (Z.of_nat (length (openChannels cm))) (initChannelTarget cm));
        try lia; reflexivity.
Qed.

(** ** What the operations leave of the policy *)

Lemma api_Open_policy partner cm : policyOf (snd (api_Open partner cm)) = policyOf cm.
Proof. unfold api_Open. by destruct (Open _ _ _ _ _). Qed.

Lemma api_Deposit_policy partner amount cm :
  policyOf (snd (api_Deposit partner amount cm)) = policyOf cm.
Proof. unfold api_Deposit. by destruct (Deposit _ _ _ _). Qed.

Lemma api_Close_policy partner cm : policyOf (snd (api_Close partner cm)) = policyOf cm.
Proof. unfold api_Close. by destruct (Close _ _ _). Qed.

Lemma close_loop_policy (chs : list Channel) cm :
  policyOf (foldl (fun st c => snd (api_Close (PartnerAddress c) st)) cm chs)
  = policyOf cm.
Proof.
  revert cm. induction chs as [|c chs IH]; intros cm; simpl; [done|].
  by rewrite IH, api_Close_policy.
Qed.

Lemma policy_funding cm cm' :
  policyOf cm' = policyOf cm ->
  initialFundingPerPartner cm' = initialFundingPerPartner cm /\
  forall p, fundingCalls cm' p = fundingCalls cm p.
Proof.
  unfold policyOf, fundingCalls, initialFundingPerPartner.
  intros [= Hb Hn Hs Hr Hbl Ht Hf Hi Hj]. rewrite Hs, Hr, Ht, Hf, Hi, Hj. done.
Qed.

Lemma policy_blocked cm cm' :
  policyOf cm' = policyOf cm ->
  blocked cm' = blocked cm /\ LeaveState cm' = LeaveState cm.
Proof.
  unfold policyOf, LeaveState, blocked.
  intros [= Hb Hn Hs Hr Hbl Ht Hf Hi Hj]. by rewrite Hbl, Ht, Hi.
Qed.

(** ** The shape of a run of the channel-opening step *)

Lemma openAndDeposit_shape (p : Address) (amount : Z) cm :
  let r := openAndDeposit p amount cm in
  let open := CallOpen (tokenAddress cm) p (ConfigSettleTimeout cm)
                       (ConfigRevealTimeout cm) in
  let deposit := CallDeposit (tokenAddress cm) p amount in
  policyOf (snd r) = policyOf cm /\
  match fst r with
  | None => ledger (snd r) = ledger cm ++ [open; deposit]
  | Some _ => ledger (snd r) = ledger cm ++ [open] \/
              ledger (snd r) = ledger cm ++ [open; deposit]
  end.
Proof.
  cbv zeta. unfold openAndDeposit.
  pose proof (api_Open_policy p cm) as Hp.
  pose proof (api_Open_frame p cm) as (Ht & Hl).
  destruct (api_Open p cm) as [err cm1]. simpl in Hp, Ht, Hl.
  destruct err as [e|]; simpl; [auto|].
  destruct (PartnerInGraph _ _ _); simpl; [|auto].
  pose proof (api_Deposit_policy p amount cm1) as Hp'.
  pose proof (api_Deposit_frame p amount cm1) as (_ & _ & Hl').
  destruct (api_Deposit p amount cm1) as [err cm2]. simpl in Hp', Hl' |- *.
  rewrite Hl', Hl, Ht, <- app_assoc. simpl.
  split; [congruence|]. destruct err; auto.
Qed.

Lemma addNewPartners_loop_shape (ps : list Address) cm :
  let r := addNewPartners_loop ps cm in
  policyOf (snd r) = policyOf cm /\
  match fst r with
  | None => ledger (snd r) = ledger cm ++ flat_map (fundingCalls cm) ps
  | Some _ =>
      exists funded p rest tail,
        ps = funded ++ p :: rest /\
        ledger (snd r) = ledger cm ++ flat_map (fundingCalls cm) funded ++ tail /\
        (tail = take 1 (fundingCalls cm p) \/ tail = fundingCalls cm p)
  end.
Proof.
  cbv zeta. revert cm. induction ps as [|p ps IH]; intros cm; simpl.
  - by rewrite app_nil_r.
  - pose proof (openAndDeposit_shape p (initialFundingPerPartner cm) cm) as [Hp Hs].
    destruct (openAndDeposit p (initialFundingPerPartner cm) cm) as [err cm1].
    simpl in Hp, Hs. destruct err as [e|]; simpl.
    + split; [done|]. exists [], p, ps. simpl.
      destruct Hs as [Hs|Hs].
      * exists (take 1 (fundingCalls cm p)). auto.
      * exists (fundingCalls cm p). auto.
    + destruct (IH cm1) as [Hp1 Hs1].
      destruct (policy_funding _ _ Hp) as [_ Hcalls].
      split; [congruence|].
      destruct (fst (addNewPartners_loop ps cm1)).
      * destruct Hs1 as (funded & q & rest & tail & -> & Hl & Htail).
        exists (p :: funded), q, rest, tail. split; [done|].
        rewrite Hl, Hs, (flat_map_ext _ _ Hcalls), <- !app_assoc. simpl.
        split; [done|]. rewrite !Hcalls in Htail. exact Htail.
      * rewrite Hs1, Hs, (flat_map_ext _ _ Hcalls), <- app_assoc. done.
Qed.

(** ** findNewPartners *)

Lemma findNewPartners_availables cm :
  filter (fun n => default false
            ((<[NodeAddress cm := true]>
               (<[BOOTSTRAP_ADDR cm := true]>
                  (foldl (fun known c => <[PartnerAddress c := true]> known)
                         (∅ : gmap Address bool) (openChannels cm)))) !! n) = false)
         (AllNodes (world cm))
  = availablePartners cm.
Proof.
  unfold availablePartners. apply list_filter_iff. intros p.
  destruct (decide (p = NodeAddress cm)) as [->|Hn].
  { rewrite lookup_insert_eq. simpl. split; [done | tauto]. }
  rewrite lookup_insert_ne by done.
  destruct (decide (p = BOOTSTRAP_ADDR cm)) as [->|Hb].
  { rewrite lookup_insert_eq. simpl. split; [done | tauto]. }
  rewrite lookup_insert_ne by done.
  pose proof (known_partners (openChannels cm) ∅ p) as Hk.
  rewrite lookup_empty in Hk. simpl in Hk.
  destruct (default false _) eqn:Hd.
  - split; [done|]. intros (_ & _ & Hnot). exfalso. apply Hnot.
    destruct Hk as [[Hk|Hk] _]; done.
  - split; [|done]. intros _. repeat split; try done.
    intros Hin. destruct Hk as [_ Hk]. by specialize (Hk (or_intror Hin)).
Qed.

(** X4: findNewPartners panics (slice bounds) exactly for a negative number;
    otherwise it returns the first [number] of the nodes of the graph that
    are neither the node itself, nor the bootstrap address, nor the partner
    of an open channel, in the order of the graph, and all of them when
    there are fewer. *)
Theorem findNewPartners_prefix_of_available (number : Z) cm :
  findNewPartners number cm =
  if number <? 0 then None
  else Some (take (Z.to_nat number) (availablePartners cm)).
Proof.
  unfold findNewPartners. rewrite findNewPartners_availables.
  destruct (Z.ltb_spec number (Z.of_nat (length (availablePartners cm)))) as [Hlt|Hge].
  - reflexivity.
  - destruct (Z.ltb_spec number 0); [lia|].
    rewrite take_ge by lia. reflexivity.
Qed.

(** ** addNewPartners, run to the end or cut short *)

Lemma addNewPartners_unfold cm :
  let n := Int64.sub (initChannelTarget cm) (Z.of_nat (length (openChannels cm))) in
  addNewPartners cm =
  addNewPartners_loop (take (Z.to_nat n) (availablePartners cm)) cm.
Proof.
  cbv zeta. unfold addNewPartners.
  set (n := Int64.sub _ _).
  destruct (Z.leb_spec n 0) as [Hle|Hpos].
  - replace (Z.to_nat n) with 0%nat by lia. reflexivity.
  - unfold findNewPartners. rewrite findNewPartners_availables.
    destruct (Z.ltb_spec n (Z.of_nat (length (availablePartners cm)))).
    + destruct (Z.ltb_spec n 0); [lia | reflexivity].
    + rewrite take_ge by lia. reflexivity.
Qed.

(** X5: when addNewPartners reports no error, what it has issued is exactly
    an Open followed by a Deposit of initialFundingPerPartner for each of
    the first [int(initChannelTarget) - len(openChannels)] available
    partners (none when that number is not positive), in order. *)
Theorem addNewPartners_success_funds_all_selected cm :
  fst (addNewPartners cm) = None ->
  ledger (snd (addNewPartners cm)) =
  ledger cm ++
  flat_map (fundingCalls cm)
    (take (Z.to_nat (Int64.sub (initChannelTarget cm)
                               (Z.of_nat (length (openChannels cm)))))
          (availablePartners cm)).
Proof.
  rewrite addNewPartners_unfold. intros Hok.
  pose proof (addNewPartners_loop_shape
                (take (Z.to_nat (Int64.sub (initChannelTarget cm)
                                           (Z.of_nat (length (openChannels cm)))))
                      (availablePartners cm)) cm) as [_ Hs].
  cbv zeta in Hs. by rewrite Hok in Hs.
Qed.

(** X6: when addNewPartners reports an error, the partners before the
    failing one each got their Open and their Deposit, the failing one got
    its Open and at most its Deposit, and no partner after it was
    contacted. *)
Theorem addNewPartners_stops_at_first_failure cm (e : error) :
  fst (addNewPartners cm) = Some e ->
  exists funded p rest tail,
    take (Z.to_nat (Int64.sub (initChannelTarget cm)
                              (Z.of_nat (length (openChannels cm)))))
         (availablePartners cm) = funded ++ p :: rest /\
    ledger (snd (addNewPartners cm)) =
      ledger cm ++ flat_map (fundingCalls cm) funded ++ tail /\
    (tail = take 1 (fundingCalls cm p) \/ tail = fundingCalls cm p).
Proof.
  rewrite addNewPartners_unfold. intros Herr.
  pose proof (addNewPartners_loop_shape
                (take (Z.to_nat (Int64.sub (initChannelTarget cm)
                                           (Z.of_nat (length (openChannels cm)))))
                      (availablePartners cm)) cm) as [_ Hs].
  cbv zeta in Hs. by rewrite Herr in Hs.
Qed.

(** ** What is never done *)

Lemma fundingCalls_not_close cm (ps : list Address) :
  Forall (fun c => isClose c = false) (flat_map (fundingCalls cm) ps).
Proof. induction ps as [|p ps IH]; simpl; repeat constructor. exact IH. Qed.

Lemma openedPartners_fundingCalls cm (ps : list Address) :
  openedPartners (flat_map (fundingCalls cm) ps) = ps.
Proof. induction ps as [|p ps IH]; simpl; [done|]. by rewrite IH. Qed.

Lemma deposits_of_fundingCalls cm (ps : list Address) (tk p : Address) (a : Z) :
  CallDeposit tk p a ∈ flat_map (fundingCalls cm) ps -> p ∈ ps.
Proof.
  induction ps as [|q ps IH]; simpl.
  - intros Hin. by apply elem_of_nil in Hin.
  - rewrite !elem_of_cons. intros [Hin|[Hin|Hin]]; [done| |].
    + injection Hin as _ -> _. by left.
    + right. by apply IH.
Qed.

(** What addNewPartners adds to the ledger log: no Close, and Opens and
    Deposits for available partners only. *)
Lemma addNewPartners_calls cm :
  policyOf (snd (addNewPartners cm)) = policyOf cm /\
  exists calls,
    ledger (snd (addNewPartners cm)) = ledger cm ++ calls /\
    Forall (fun c => isClose c = false) calls /\
    (forall tk p a, CallDeposit tk p a ∈ calls -> p ∈ availablePartners cm) /\
    (forall p, p ∈ openedPartners calls -> p ∈ availablePartners cm).
Proof.
  rewrite addNewPartners_unfold.
  set (ps := take _ (availablePartners cm)).
  assert (Hps : forall p, p ∈ ps -> p ∈ availablePartners cm).
  { intros p. apply subseteq_take. }
  destruct (addNewPartners_loop_shape ps cm) as [Hp Hs]. cbv zeta in Hs.
  split; [done|].
  destruct (fst (addNewPartners_loop ps cm)).
  - destruct Hs as (funded & p & rest & tail & Heq & Hl & Htail).
    assert (Hfunded : forall q, q ∈ funded -> q ∈ availablePartners cm).
    { intros q Hq. apply Hps. rewrite Heq. apply elem_of_app. by left. }
    assert (Hp' : p ∈ availablePartners cm).
    { apply Hps. rewrite Heq. apply elem_of_app. right. left. }
    exists (flat_map (fundingCalls cm) funded ++ tail).
    split; [done|]. split; [|split].
    + apply Forall_app. split; [apply fundingCalls_not_close|].
      destruct Htail as [-> | ->]; simpl; repeat constructor.
    + intros tk q a [Hin|Hin]%elem_of_app.
      * eapply Hfunded, deposits_of_fundingCalls, Hin.
      * assert (q = p) as ->; [|done].
        destruct Htail as [-> | ->]; simpl in Hin;
          repeat (apply elem_of_cons in Hin as [Hin|Hin]);
          try congruence; by apply elem_of_nil in Hin.
    + intros q. unfold openedPartners. rewrite omap_app.
      fold (openedPartners (flat_map (fundingCalls cm) funded)).
      rewrite openedPartners_fundingCalls.
      intros [Hin|Hin]%elem_of_app; [by apply Hfunded|].
      assert (q = p) as ->; [|done].
      destruct Htail as [-> | ->]; simpl in Hin;
        repeat (apply elem_of_cons in Hin as [Hin|Hin]);
        try congruence; by apply elem_of_nil in Hin.
  - exists (flat_map (fundingCalls cm) ps). split; [done|]. split; [|split].
    + apply fundingCalls_not_close.
    + intros tk q a Hin. eapply Hps, deposits_of_fundingCalls, Hin.
    + intros q. rewrite openedPartners_fundingCalls. apply Hps.
Qed.

(** ** Connect with positive funds *)

(** Connect, once past the check of the funds, is the channel-opening step
    run from a state with the token unblocked, the new policy recorded and,
    when the graph has no node, the bootstrap channel opened. *)
Lemma Connect_unfold (funds' target : Z) (reserve : float) cm :
  0 < funds' ->
  exists pre,
    Connect funds' target reserve cm = addNewPartners pre /\
    policyOf pre =
      (BOOTSTRAP_ADDR cm, NodeAddress cm, ConfigSettleTimeout cm,
       ConfigRevealTimeout cm, delete (tokenAddress cm) (blockedTokens cm),
       tokenAddress cm, funds', target, reserve) /\
    (if HaveNodes (world cm)
     then world pre = world cm /\ ledger pre = ledger cm
     else ledger pre =
          ledger cm ++ [CallOpen (tokenAddress cm) (BOOTSTRAP_ADDR cm)
                                 (ConfigSettleTimeout cm) (ConfigRevealTimeout cm)]).
Proof.
  intros Hf. unfold Connect. destruct (Z.leb_spec funds' 0); [lia|].
  eexists. split; [reflexivity|].
  assert (Hdel : blockedTokens
                   (if blocked cm
                    then with_blockedTokens (delete (tokenAddress cm) (blockedTokens cm)) cm
                    else cm) = delete (tokenAddress cm) (blockedTokens cm)).
  { unfold blocked. case_bool_decide as Hb; simpl; [done|].
    symmetry. apply delete_id. by apply eq_None_not_Some. }
  destruct (blocked cm); simpl in *.
  - destruct (HaveNodes (world cm)); simpl; [done|].
    unfold api_Open. simpl. by destruct (Open _ _ _ _ _).
  - destruct (HaveNodes (world cm)); simpl.
    + unfold policyOf. simpl. by rewrite <- Hdel.
    + unfold api_Open. simpl. destruct (Open _ _ _ _ _). simpl.
      unfold policyOf. simpl. by rewrite <- Hdel.
Qed.

(** X7: a Connect with positive funds, whether or not opening and funding
    the partners then fails, leaves the token network unblocked and the
    given funds, channel target and reserve fraction recorded; the manager
    is then in the leaving state only if the target is below one. *)
Theorem Connect_records_policy (funds' target : Z) (reserve : float) cm :
  0 < funds' ->
  let cm' := snd (Connect funds' target reserve cm) in
  funds cm' = funds' /\
  initChannelTarget cm' = target /\
  joinableFundsTarget cm' = reserve /\
  blockedTokens cm' = delete (tokenAddress cm) (blockedTokens cm) /\
  tokenAddress cm' = tokenAddress cm /\
  LeaveState cm' = (target <? 1).
Proof.
  intros Hf. cbv zeta.
  destruct (Connect_unfold funds' target reserve cm Hf) as (pre & -> & Hpre & _).
  destruct (addNewPartners_calls pre) as [Hp _]. rewrite Hpre in Hp.
  unfold policyOf in Hp. injection Hp as _ _ _ _ Hb Ht Hfu Hi Hj.
  repeat split; try done.
  unfold LeaveState, blocked. rewrite Hb, Ht, Hi, lookup_delete_eq.
  rewrite bool_decide_eq_false_2; [done|]. by intros [? ?].
Qed.

(** X8: Connect, RetryConnect and JoinChannel add calls to the ledger log
    and never a Close among them: none of them closes a channel. *)
Theorem policy_operations_never_close (funds' target : Z) (reserve : float)
    (partner : Address) (partnerDeposit : Z) cm :
  (exists calls, ledger (snd (Connect funds' target reserve cm)) = ledger cm ++ calls /\
                 Forall (fun c => isClose c = false) calls) /\
  (exists calls, ledger (RetryConnect cm) = ledger cm ++ calls /\
                 Forall (fun c => isClose c = false) calls) /\
  (exists calls, ledger (JoinChannel partner partnerDeposit cm) = ledger cm ++ calls /\
                 Forall (fun c => isClose c = false) calls).
Proof.
  assert (Hnone : exists calls : list LedgerCall,
             ledger cm = ledger cm ++ calls /\ Forall (fun c => isClose c = false) calls).
  { exists []. by rewrite app_nil_r. }
  split; [|split].
  - destruct (Z.leb_spec funds' 0) as [Hf|Hf].
    { unfold Connect. destruct (Z.leb_spec funds' 0); [done | lia]. }
    destruct (Connect_unfold funds' target reserve cm Hf) as (pre & -> & _ & Hpre).
    destruct (addNewPartners_calls pre) as (_ & calls & Hl & Hnc & _ & _).
    destruct (HaveNodes (world cm)).
    + destruct Hpre as [_ Hpre]. exists calls. by rewrite Hl, Hpre.
    + eexists. rewrite Hl, Hpre, <- app_assoc. split; [reflexivity|].
      simpl. by constructor.
  - unfold RetryConnect.
    repeat (match goal with |- context [if ?b then _ else _] => destruct b end);
      try done.
    destruct (addNewPartners_calls cm) as (_ & calls & Hl & Hnc & _ & _). eauto.
  - unfold JoinChannel.
    repeat (match goal with |- context [if ?b then _ else _] => destruct b end);
      try done.
    all: eexists; (split; [apply api_Deposit_frame|]); by repeat constructor.
Qed.

(** X9: every Deposit that Connect issues goes to a partner other than the
    bootstrap address and other than the node itself: the bootstrap channel
    is opened, never funded. *)
Theorem Connect_never_funds_bootstrap (funds' target : Z) (reserve : float)
    cm (tk p : Address) (a : Z) :
  CallDeposit tk p a ∈ newCalls cm (snd (Connect funds' target reserve cm)) ->
  p <> BOOTSTRAP_ADDR cm /\ p <> NodeAddress cm.
Proof.
  unfold newCalls.
  destruct (Z.leb_spec funds' 0) as [Hf|Hf].
  { unfold Connect. destruct (Z.leb_spec funds' 0); [|lia]. simpl.
    rewrite drop_all. intros Hin. by apply elem_of_nil in Hin. }
  destruct (Connect_unfold funds' target reserve cm Hf) as (pre & -> & Hpol & Hpre).
  destruct (addNewPartners_calls pre) as (_ & calls & Hl & _ & Hdep & _).
  unfold policyOf in Hpol. injection Hpol as Hb Hn _ _ _ _ _ _ _.
  assert (Hav : forall q, q ∈ availablePartners pre ->
                          q <> BOOTSTRAP_ADDR cm /\ q <> NodeAddress cm).
  { intros q [(Hq1 & Hq2 & _) _]%list_elem_of_filter. by rewrite <- Hb, <- Hn. }
  rewrite Hl. destruct (HaveNodes (world cm)).
  - destruct Hpre as [_ ->]. rewrite drop_app_length.
    intros Hin. eapply Hav, Hdep, Hin.
  - rewrite Hpre, <- app_assoc, drop_app_length. simpl.
    intros [Hin|Hin]%elem_of_cons; [done|]. eapply Hav, Hdep, Hin.
Qed.

(** X10: on a token network whose graph has nodes, a Connect with positive
    funds and a target that the open channels already meet issues no ledger
    call and reports no error: it only unblocks the token and records the
    new policy (the difference target minus open channels being
    representable as an int64). *)
Theorem Connect_at_target_only_records (funds' target : Z) (reserve : float) cm :
  0 < funds' ->
  HaveNodes (world cm) = true ->
  Int64.in_range (target - Z.of_nat (length (openChannels cm))) ->
  target <= Z.of_nat (length (openChannels cm)) ->
  let r := Connect funds' target reserve cm in
  fst r = None /\ ledger (snd r) = ledger cm /\ world (snd r) = world cm /\
  funds (snd r) = funds' /\ initChannelTarget (snd r) = target.
Proof.
  intros Hf Hnodes Hr Ht. cbv zeta.
  destruct (Connect_unfold funds' target reserve cm Hf) as (pre & -> & Hpol & Hpre).
  rewrite Hnodes in Hpre. destruct Hpre as [Hw Hl].
  unfold policyOf in Hpol. injection Hpol as _ _ _ _ _ Htk Hfu Hi _.
  assert (Hopen : openChannels pre = openChannels cm)
    by (by apply openChannels_ext).
  unfold addNewPartners, Int64.sub. rewrite Hopen, Hi, (Int64_wrap_small _ Hr).
  destruct (Z.leb_spec (target - Z.of_nat (length (openChannels cm))) 0); [|lia].
  simpl. auto.
Qed.

(** ** After Leave *)

(** X11: whatever Leave has closed and whether or not it has returned, the
    manager is in the leaving state afterwards: WantsMoreChannels is false,
    and RetryConnect and JoinChannel do nothing at all. *)
Theorem Leave_disables_policy (fuel : nat)
    (observe : nat -> Channel -> ChannelState) (onlyReceiving : bool)
    (partner : Address) (partnerDeposit : Z) cm :
  let cm' := snd (Leave fuel observe onlyReceiving cm) in
  LeaveState cm' = true /\
  WantsMoreChannels cm' = false /\
  RetryConnect cm' = cm' /\
  JoinChannel partner partnerDeposit cm' = cm'.
Proof.
  cbv zeta.
  assert (Hb : blocked (snd (Leave fuel observe onlyReceiving cm)) = true).
  { unfold Leave, closeAll. simpl.
    match goal with
    | |- blocked (foldl ?f ?st ?l) = true =>
        pose proof (close_loop_policy l st) as Hp
    end.
    apply policy_blocked in Hp as [-> _].
    unfold blocked. apply bool_decide_eq_true_2.
    destruct (0 <? _); simpl; rewrite lookup_insert_eq; by eexists. }
  assert (HL : LeaveState (snd (Leave fuel observe onlyReceiving cm)) = true).
  { unfold LeaveState. by rewrite Hb. }
  split; [done|]. split; [unfold WantsMoreChannels; by rewrite Hb|].
  split.
  - unfold RetryConnect. rewrite HL. by destruct (_ <=? _).
  - unfold JoinChannel. rewrite HL. by destruct (_ <=? _).
Qed.

(** ** minSettleBlocks *)

Lemma receivingChannels_open cm (c : Channel) :
  c ∈ receivingChannels cm -> State c = CHANNEL_STATE_OPENED.
Proof.
  unfold receivingChannels, openChannels.
  by intros [_ [Hs _]%list_elem_of_filter]%list_elem_of_filter.
Qed.

Lemma foldr_max_ge (ts : list Z) (a : Z) : a <= foldr Z.max a ts.
Proof. induction ts as [|t ts IH]; simpl; lia. Qed.

Lemma foldr_max_init (ts : list Z) (a b : Z) :
  a <= b -> foldr Z.max b ts = Z.max b (foldr Z.max a ts).
Proof. intros Hab. induction ts as [|t ts IH]; simpl; lia. Qed.

Lemma max_loop (ts : list Z) (m : Z) :
  foldl (fun maxTimeout t => if maxTimeout <? t then t else maxTimeout) m ts
  = foldr Z.max m ts.
Proof.
  revert m. induction ts as [|t ts IH]; intros m; simpl; [done|].
  rewrite IH. pose proof (foldr_max_ge ts m) as Hge.
  destruct (Z.ltb_spec m t) as [Hlt|Hle].
  - rewrite (foldr_max_init ts m t) by lia. lia.
  - lia.
Qed.

Lemma minSettleBlocks_loop_open (SettleTimeout ClosedBlock : Channel -> Z)
    (currentBlock : Z) (stateAt : nat -> Channel -> ChannelState)
    (chs : list Channel) (n : nat) (m : Z) :
  (forall k c, c ∈ chs -> stateAt k c = CHANNEL_STATE_OPENED) ->
  minSettleBlocks_loop SettleTimeout ClosedBlock currentBlock stateAt n chs m
  = foldl (fun maxTimeout t => if maxTimeout <? t then t else maxTimeout) m
      (map (fun c => Int64.wrap (SettleTimeout c + 1)) chs).
Proof.
  revert n m. induction chs as [|c chs IH]; intros n m Hopen; simpl; [done|].
  assert (Hc : forall k, stateAt k c = CHANNEL_STATE_OPENED)
    by (intros k; apply Hopen; left).
  rewrite !Hc. simpl. unfold Int64.sub at 1.
  replace (SettleTimeout c - -1) with (SettleTimeout c + 1) by lia.
  apply IH. intros k c' Hc'. apply Hopen. by right.
Qed.

(** X12: when the channels selected by receivingChannels (the opened
    channels of the token network with a received transfer) still report
    the opened state at every call of State() the loop makes,
    minSettleBlocks is the greatest of -1 and the values SettleTimeout + 1
    of these channels, each reduced to an int64 (a SettleTimeout of
    MaxInt64 contributes MinInt64, and the result is then -1 unless another
    channel gives more); the current block and the blocks at which channels
    were closed do not enter the result.  A channel that reports the closed
    state in the loop contributes SettleTimeout - (currentBlock -
    ClosedBlock) instead (see [minSettleBlocks_closed_meanwhile]). *)
Theorem minSettleBlocks_of_open_channels (SettleTimeout ClosedBlock : Channel -> Z)
    (currentBlock : Z) (stateAt : nat -> Channel -> ChannelState) cm :
  (forall k c, c ∈ receivingChannels cm -> stateAt k c = CHANNEL_STATE_OPENED) ->
  minSettleBlocks SettleTimeout ClosedBlock currentBlock stateAt cm
  = foldr Z.max (-1)
      (map (fun c => Int64.wrap (SettleTimeout c + 1))
         (filter (fun c => (0 < length (ReceivedTransfers c))%nat)
            (filter (fun c => State c = CHANNEL_STATE_OPENED)
               (GetChannelList (tokenAddress cm) (world cm))))).
Proof.
  intros Hopen. unfold minSettleBlocks.
  rewrite minSettleBlocks_loop_open by exact Hopen.
  apply max_loop.
Qed.

(** ** WaitForSettle and Leave at the first round *)

(** X13: given at least one round, WaitForSettle returns (true) exactly when
    every channel of the list is settled at the first round of polling, and
    is still waiting after any number of rounds exactly when one of them is
    not; what the channels report later never matters. *)
Theorem WaitForSettle_decided_by_first_poll (fuel : nat)
    (observe : nat -> Channel -> ChannelState) (chs : list Channel) :
  WaitForSettle (S fuel) observe chs =
  if forallb (fun c => bool_decide (observe 0%nat c = CHANNEL_STATE_SETTLED)) chs
  then Some true else None.
Proof.
  destruct (forallb _ chs) eqn:Hall.
  - apply WaitForSettle_returns_at_once. intros c Hc.
    rewrite forallb_forall in Hall.
    specialize (Hall c (proj1 (list_elem_of_In _ _) Hc)).
    by apply bool_decide_eq_true_1 in Hall.
  - assert (Hex : exists c, c ∈ chs /\ observe 0%nat c <> CHANNEL_STATE_SETTLED).
    { induction chs as [|c chs IH]; simpl in Hall; [done|].
      apply andb_false_iff in Hall as [Hc|Hrest].
      - exists c. split; [left|]. by apply bool_decide_eq_false_1 in Hc.
      - destruct (IH Hrest) as (c' & Hin & Hc'). exists c'. split; [by right | done]. }
    destruct Hex as (c & Hin & Hc).
    by apply (WaitForSettle_never_returns (S fuel) observe chs c).
Qed.

(** X14: a Leave that finds no channel to close issues no ledger call and
    returns the empty list at the first round of polling. *)
Theorem Leave_with_nothing_to_close (fuel : nat)
    (observe : nat -> Channel -> ChannelState) (onlyReceiving : bool) cm :
  (if onlyReceiving then receivingChannels cm else openChannels cm) = [] ->
  let r := Leave (S fuel) observe onlyReceiving cm in
  fst r = Some [] /\ ledger (snd r) = ledger cm /\ world (snd r) = world cm /\
  initChannelTarget (snd r) = 0.
Proof.
  intros Hnone. cbv zeta. unfold Leave, closeAll.
  set (cm1 := with_blockedTokens _ cm).
  set (marked := if 0 <? initChannelTarget cm1 then _ else cm1).
  assert (Hm : tokenAddress marked = tokenAddress cm /\ world marked = world cm /\
               ledger marked = ledger cm).
  { subst marked. by destruct (0 <? initChannelTarget cm1). }
  destruct Hm as (Ht & Hw & Hl).
  assert (Hopen : openChannels (with_initChannelTarget 0 marked) = openChannels cm)
    by (by apply openChannels_ext).
  assert (Hsel : (if onlyReceiving
                  then receivingChannels (with_initChannelTarget 0 marked)
                  else openChannels (with_initChannelTarget 0 marked)) = []).
  { unfold receivingChannels in *. by rewrite Hopen. }
  simpl. rewrite Hsel. simpl. auto.
Qed.

(** X15: a Connect with positive funds on a token network whose graph has
    no node starts with the Open of the bootstrap channel; whether or not
    the graph has nodes, none of the channels opened for new partners is
    with the bootstrap address. *)
Theorem Connect_bootstraps_an_empty_network (funds' target : Z) (reserve : float) cm :
  0 < funds' ->
  let calls := newCalls cm (snd (Connect funds' target reserve cm)) in
  if HaveNodes (world cm)
  then BOOTSTRAP_ADDR cm ∉ openedPartners calls
  else exists rest,
         calls = CallOpen (tokenAddress cm) (BOOTSTRAP_ADDR cm)
                          (ConfigSettleTimeout cm) (ConfigRevealTimeout cm) :: rest /\
         BOOTSTRAP_ADDR cm ∉ openedPartners rest.
Proof.
  intros Hf. cbv zeta. unfold newCalls.
  destruct (Connect_unfold funds' target reserve cm Hf) as (pre & -> & Hpol & Hpre).
  destruct (addNewPartners_calls pre) as (_ & calls & Hl & _ & _ & Hopen).
  unfold policyOf in Hpol. injection Hpol as Hb _ _ _ _ _ _ _ _.
  assert (Hnot : BOOTSTRAP_ADDR cm ∉ openedPartners calls).
  { intros Hin. apply Hopen in Hin.
    apply list_elem_of_filter in Hin as [(_ & Hne & _) _]. by rewrite Hb in Hne. }
  rewrite Hl. destruct (HaveNodes (world cm)).
  - destruct Hpre as [_ ->]. by rewrite drop_app_length.
  - rewrite Hpre, <- app_assoc, drop_app_length. simpl. eauto.
Qed.

End ConnectionManagerMore.

(** ** Witnesses on the reference ledgers *)

Lemma fundsRemaining_exact_witness :
  let cm := manager 1600 2 0.5%float (oneChannel 1300) in
  0 < funds cm /\ Int64.in_range (funds cm - depositsTotal cm) /\
  fundsRemaining cm = 300.
Proof.
  set (cm := manager 1600 2 0.5%float (oneChannel 1300)).
  assert (Hf : 0 < funds cm) by (vm_compute; reflexivity).
  assert (Hr : Int64.in_range (funds cm - depositsTotal cm))
    by (vm_compute; split; discriminate).
  split; [exact Hf|]. split; [exact Hr|].
  exact (fundsRemaining_exact cm Hf Hr).
Defined.

Lemma Connect_records_policy_witness :
  let cm' := snd (Connect 1000 4 0.25%float (refManager tenPartners)) in
  0 < 1000 /\
  funds cm' = 1000 /\ initChannelTarget cm' = 4 /\
  joinableFundsTarget cm' = 0.25%float /\ LeaveState cm' = false.
Proof.
  assert (Hf : 0 < 1000) by lia.
  destruct (Connect_records_policy 1000 4 0.25%float (refManager tenPartners) Hf)
    as (H1 & H2 & H3 & _ & _ & H6).
  split; [exact Hf|]. split; [exact H1|]. split; [exact H2|]. split; [exact H3|].
  exact H6.
Defined.

Lemma addNewPartners_success_funds_all_selected_witness :
  let cm := manager 1000 4 0.25%float tenPartners in
  fst (addNewPartners cm) = None /\
  ledger (snd (addNewPartners cm)) =
    [CallOpen 7 11 600 30; CallDeposit 7 11 187;
     CallOpen 7 12 600 30; CallDeposit 7 12 187;
     CallOpen 7 13 600 30; CallDeposit 7 13 187;
     CallOpen 7 14 600 30; CallDeposit 7 14 187]%N.
Proof.
  set (cm := manager 1000 4 0.25%float tenPartners).
  assert (Hok : fst (addNewPartners cm) = None) by (vm_compute; reflexivity).
  split; [exact Hok|].
  rewrite (addNewPartners_success_funds_all_selected cm Hok).
  vm_compute. reflexivity.
Defined.

Lemma addNewPartners_stops_at_first_failure_witness :
  fst (addNewPartners lostManager) = Some (partner_not_in_channelgraph 11%N 7%N) /\
  exists funded p rest tail,
    take (Z.to_nat (Int64.sub (initChannelTarget lostManager)
                              (Z.of_nat (length (openChannels lostManager)))))
         (availablePartners lostManager) = funded ++ p :: rest /\
    ledger (snd (addNewPartners lostManager)) =
      ledger lostManager ++ flat_map (fundingCalls lostManager) funded ++ tail /\
    (tail = take 1 (fundingCalls lostManager p) \/ tail = fundingCalls lostManager p).
Proof.
  assert (Herr : fst (addNewPartners lostManager)
                 = Some (partner_not_in_channelgraph 11%N 7%N))
    by (vm_compute; reflexivity).
  split; [exact Herr|].
  exact (addNewPartners_stops_at_first_failure lostManager _ Herr).
Defined.

Lemma Connect_never_funds_bootstrap_witness :
  CallDeposit 7%N 11%N 187
    ∈ newCalls (refManager tenPartners)
               (snd (Connect 1000 4 0.25%float (refManager tenPartners))) /\
  11%N <> BOOTSTRAP_ADDR (refManager tenPartners) /\
  11%N <> NodeAddress (refManager tenPartners).
Proof.
  assert (Hin : CallDeposit 7%N 11%N 187
                  ∈ newCalls (refManager tenPartners)
                      (snd (Connect 1000 4 0.25%float (refManager tenPartners)))).
  { assert (Hc : newCalls (refManager tenPartners)
                   (snd (Connect 1000 4 0.25%float (refManager tenPartners)))
                 = [CallOpen 7 11 600 30; CallDeposit 7 11 187;
                    CallOpen 7 12 600 30; CallDeposit 7 12 187;
                    CallOpen 7 13 600 30; CallDeposit 7 13 187;
                    CallOpen 7 14 600 30; CallDeposit 7 14 187]%N)
      by (vm_compute; reflexivity).
    rewrite Hc. apply list_elem_of_further, list_elem_of_here. }
  split; [exact Hin|].
  exact (Connect_never_funds_bootstrap 1000 4 0.25%float (refManager tenPartners)
           7%N 11%N 187 Hin).
Defined.

Lemma Connect_at_target_only_records_witness :
  let cm := refManager (oneChannel 0) in
  let r := Connect 1000 1 0.25%float cm in
  0 < 1000 /\ HaveNodes (world cm) = true /\
  1 <= Z.of_nat (length (openChannels cm)) /\
  fst r = None /\ ledger (snd r) = ledger cm /\ world (snd r) = world cm /\
  funds (snd r) = 1000 /\ initChannelTarget (snd r) = 1.
Proof.
  set (cm := refManager (oneChannel 0)).
  assert (Hf : 0 < 1000) by lia.
  assert (Hn : HaveNodes (world cm) = true) by (vm_compute; reflexivity).
  assert (Hr : Int64.in_range (1 - Z.of_nat (length (openChannels cm))))
    by (vm_compute; split; discriminate).
  assert (Ht : 1 <= Z.of_nat (length (openChannels cm)))
    by (vm_compute; discriminate).
  split; [exact Hf|]. split; [exact Hn|]. split; [exact Ht|].
  exact (Connect_at_target_only_records 1000 1 0.25%float cm Hf Hn Hr Ht).
Defined.

Lemma Connect_bootstraps_an_empty_network_witness :
  0 < 1000 /\
  exists rest,
    newCalls (refManager emptyNetwork)
             (snd (Connect 1000 4 0.25%float (refManager emptyNetwork)))
    = CallOpen 7%N bootstrap 600 30 :: rest /\
    bootstrap ∉ openedPartners rest.
Proof.
  assert (Hf : 0 < 1000) by lia.
  split; [exact Hf|].
  exact (Connect_bootstraps_an_empty_network 1000 4 0.25%float
           (refManager emptyNetwork) Hf).
Defined.

Lemma Leave_with_nothing_to_close_witness :
  let cm := manager 1000 4 0.25%float tenPartners in
  let r := Leave 1 settledFromSecondPoll false cm in
  openChannels cm = [] /\
  fst r = Some [] /\ ledger (snd r) = ledger cm /\ world (snd r) = world cm /\
  initChannelTarget (snd r) = 0.
Proof.
  set (cm := manager 1000 4 0.25%float tenPartners).
  assert (Hnone : (if false then receivingChannels cm else openChannels cm) = [])
    by reflexivity.
  split; [exact Hnone|].
  exact (Leave_with_nothing_to_close 0 settledFromSecondPoll false cm Hnone).
Defined.

(** Channel A, with a settle timeout of 600, still open in the loop. *)
Lemma minSettleBlocks_of_open_channels_witness :
  let cm := manager 1000 4 0.25%float channelsAB in
  let stateAt := fun (_ : nat) (c : Channel) => State c in
  (forall k c, c ∈ receivingChannels cm -> stateAt k c = CHANNEL_STATE_OPENED) /\
  minSettleBlocks (fun _ => 600) (fun _ => 0) 1000 stateAt cm = 601.
Proof.
  assert (H : forall (k : nat) c,
            c ∈ receivingChannels (manager 1000 4 0.25%float channelsAB) ->
            State c = CHANNEL_STATE_OPENED).
  { intros k c Hc. apply list_elem_of_filter in Hc as [_ Hc].
    by apply list_elem_of_filter in Hc as [Hs _]. }
  split; [exact H|].
  exact (minSettleBlocks_of_open_channels (fun _ => 600) (fun _ => 0) 1000
           (fun _ c => State c) (manager 1000 4 0.25%float channelsAB) H).
Defined.

(** Channel A closed at block 900 between the filter and the loop: at block
    1000 it has 500 blocks left of its 600. *)
Example minSettleBlocks_closed_meanwhile :
  minSettleBlocks (fun _ => 600) (fun _ => 900) 1000
    (fun _ _ => CHANNEL_STATE_CLOSED) (manager 1000 4 0.25%float channelsAB)
  = 500.
Proof. reflexivity. Qed.

(** A settle timeout of MaxInt64 on an open channel wraps around to MinInt64
    and loses against the initial -1. *)
Example minSettleBlocks_wraps :
  minSettleBlocks (fun _ => Int64.max_int) (fun _ => 0) 1000
    (fun _ c => State c) (manager 1000 4 0.25%float channelsAB)
  = -1.
Proof. reflexivity. Qed.

(** * More properties of the alarm task *)

(** X16: removing a callback right after registering it leaves it
    registered: RemoveCallback returns the task with the callback list it
    was given, the new callback at its end. *)
Theorem RemoveCallback_after_RegisterCallback (free : Loc) (cb : AlarmCallback)
    (t : AlarmTask) :
  RemoveCallback free cb (RegisterCallback cb t) = Some (RegisterCallback cb t) /\
  callback (RegisterCallback cb t) = callback t ++ [cb].
Proof.
  split; [|reflexivity].
  unfold RemoveCallback, declare.
  rewrite RemoveCallback_loop_distinct by lia. reflexivity.
Qed.

(** X17: when the select receives a header, every registered callback is
    called once with the header's number, in the order of registration,
    whatever the callbacks return; the callback list, the chain and the
    headers still queued stay as they are. *)
Theorem received_header_calls_every_callback (s : System) (cur h : Z) (q : list Z) :
  runner s = Selecting cur (h :: q) ->
  exists s',
    step EvRecvHeader s = Some s' /\
    invoked s' = invoked s ++ map (fun cb => (cb_id cb, h)) (callback (task s)) /\
    callback (task s') = callback (task s) /\
    runner s' = Selecting h q /\
    chainHeight s' = chainHeight s.
Proof.
  intros Hr. unfold step. rewrite Hr. eexists. split; [reflexivity|].
  unfold onHeader.
  pose proof (invokeCallbacks_log h (callback (task s)) [] (invoked s)) as Hlog.
  destruct (invokeCallbacks h (callback (task s)) [] (invoked s)) as [removes log].
  simpl in Hlog. rewrite removeCallbacks_removes_nothing. simpl. by rewrite Hlog.
Qed.

Lemma received_header_calls_every_callback_witness :
  let s := {| task := RegisterCallback alwaysFails NewAlarmTask;
              runner := Selecting (-1) [5; 6]; chainHeight := 6; invoked := [] |} in
  runner s = Selecting (-1) [5; 6] /\
  exists s',
    step EvRecvHeader s = Some s' /\
    invoked s' = invoked s ++ map (fun cb => (cb_id cb, 5)) (callback (task s)) /\
    callback (task s') = callback (task s) /\
    runner s' = Selecting 5 [6] /\
    chainHeight s' = chainHeight s.
Proof.
  split; [reflexivity|].
  exact (received_header_calls_every_callback
           {| task := RegisterCallback alwaysFails NewAlarmTask;
              runner := Selecting (-1) [5; 6]; chainHeight := 6; invoked := [] |}
           (-1) 5 [6] eq_refl).
Defined.

(** X18: on a task that is started once (one goroutine of [run]) and whose
    callbacks, of distinct identities, are all registered before Start: as
    long as Stop is not called and no further callback is registered, all
    the callbacks have been called with the same heights, strictly
    increasing and none of them above the height of the chain, and all of
    them are still registered.  Neither restriction can be dropped: a
    callback registered after Start misses the heights delivered before it
    (see [late_callback_misses_heights]), and a second Start is a second
    goroutine, which the system does not describe. *)
Theorem callbacks_see_the_same_heights (cbs : list AlarmCallback) (height : Z)
    (es : list Event) (s : System) :
  NoDup (map cb_id cbs) ->
  EvStop ∉ es ->
  (forall cb, EvRegisterCallback cb ∉ es) ->
  execute es (initialSystem cbs height) = Some s ->
  exists hs,
    (forall cb, cb ∈ cbs -> heightsOf (cb_id cb) (invoked s) = hs) /\
    StronglySorted Z.lt hs /\
    Forall (fun h => h <= chainHeight s) hs /\
    callback (task s) = cbs.
Proof.
  intros Hnd Hfree Hreg Hexec.
  destruct (StopFree_execute cbs es _ s [] (StopFree_initial cbs height)
              Hfree Hreg Hexec)
    as [hs [_ Hcbs _ Hlog _ Hsorted Hbound]].
  exists hs. split; [|split; [|split]].
  - intros cb Hcb. rewrite Hlog, heightsOf_rounds by done.
    rewrite decide_True; [done|].
    apply list_elem_of_In, in_map, list_elem_of_In, Hcb.
  - by apply StronglySorted_app_1_l in Hsorted.
  - by apply Forall_app in Hbound as [Hbound _].
  - done.
Qed.

Lemma retryingRun_without_Stop : EvStop ∉ retryingRun.
Proof.
  unfold retryingRun. intros Hin.
  repeat (apply elem_of_cons in Hin as [Hin|Hin]; [discriminate|]).
  by apply elem_of_nil in Hin.
Defined.

Lemma retryingRun_without_RegisterCallback (cb : AlarmCallback) :
  EvRegisterCallback cb ∉ retryingRun.
Proof.
  unfold retryingRun. intros Hin.
  repeat (apply elem_of_cons in Hin as [Hin|Hin]; [discriminate|]).
  by apply elem_of_nil in Hin.
Defined.

Lemma twoCallbacks_distinct : NoDup (map cb_id twoCallbacks).
Proof.
  simpl. apply NoDup_cons. split.
  - intros Hin. apply elem_of_cons in Hin as [Hin|Hin]; [discriminate|].
    by apply elem_of_nil in Hin.
  - apply NoDup_singleton.
Defined.

Lemma callbacks_see_the_same_heights_witness :
  exists s,
    NoDup (map cb_id twoCallbacks) /\ (EvStop ∉ retryingRun) /\
    (forall cb, EvRegisterCallback cb ∉ retryingRun) /\
    execute retryingRun (initialSystem twoCallbacks 5) = Some s /\
    heightsOf 1 (invoked s) = [6; 7; 8] /\
    exists hs,
      (forall cb, cb ∈ twoCallbacks -> heightsOf (cb_id cb) (invoked s) = hs) /\
      StronglySorted Z.lt hs /\
      Forall (fun h => h <= chainHeight s) hs /\
      callback (task s) = twoCallbacks.
Proof.
  eexists. split; [exact twoCallbacks_distinct|].
  split; [exact retryingRun_without_Stop|].
  split; [exact retryingRun_without_RegisterCallback|].
  split; [reflexivity|]. split; [reflexivity|].
  exact (callbacks_see_the_same_heights twoCallbacks 5 retryingRun _
           twoCallbacks_distinct retryingRun_without_Stop
           retryingRun_without_RegisterCallback eq_refl).
Defined.

(** A callback registered after Start is called from the next header on: it
    misses the heights delivered before its registration. *)
Example late_callback_misses_heights :
  let late := {| cb_id := 1; cb_call := fun _ => None |} in
  option_map invoked
    (execute [EvStart; EvHeaderByNumberOk; EvSubscribeOk; EvRecvHeader;
              EvRegisterCallback late; EvBlockMined; EvRecvHeader]
             (initialSystem [neverFails] 5))
  = Some [(0%nat, 5); (0%nat, 6); (1%nat, 6)].
Proof. reflexivity. Qed.

(** X19: Stop does not end the task.  From the select, after a Stop that
    returns, [run] calls waitNewBlock again: the current header is fetched
    and, once subscribed, delivered, so that every callback is called once
    more, with the height the chain has, although [shouldStop] is closed. *)
Theorem run_goes_on_after_Stop (s : System) (cur : Z) (q : list Z) :
  runner s = Selecting cur q ->
  shouldStop (task s) = ChanOpen ->
  exists s',
    execute [EvStop; EvHeaderByNumberOk; EvSubscribeOk; EvRecvHeader] s = Some s' /\
    shouldStop (task s') = ChanClosed /\
    callback (task s') = callback (task s) /\
    invoked s' =
      invoked s ++ map (fun cb => (cb_id cb, chainHeight s)) (callback (task s)).
Proof.
  intros Hr Hopen. unfold execute, step at 1, Stop. rewrite Hr, Hopen. simpl.
  rewrite onHeader_calls_all. simpl. eauto.
Qed.

Lemma run_goes_on_after_Stop_witness :
  let s := {| task := RegisterCallback neverFails NewAlarmTask;
              runner := Selecting 5 []; chainHeight := 5; invoked := [(0%nat, 5)] |} in
  runner s = Selecting 5 [] /\ shouldStop (task s) = ChanOpen /\
  exists s',
    execute [EvStop; EvHeaderByNumberOk; EvSubscribeOk; EvRecvHeader] s = Some s' /\
    shouldStop (task s') = ChanClosed /\
    callback (task s') = callback (task s) /\
    invoked s' =
      invoked s ++ map (fun cb => (cb_id cb, chainHeight s)) (callback (task s)).
Proof.
  split; [reflexivity|]. split; [reflexivity|].
  exact (run_goes_on_after_Stop
           {| task := RegisterCallback neverFails NewAlarmTask;
              runner := Selecting 5 []; chainHeight := 5; invoked := [(0%nat, 5)] |}
           5 [] eq_refl eq_refl).
Defined.
